(** * Lift simulation: dispatch, movement and pending calls

    A shallow embedding of the controller of the lift simulation: the
    class [LiftSimulation] of src/js/main.js (lines 1-248).  The functional
    files (src/js/main_functional.js and the unnamed part 1) hold the same
    controller with the state passed as an argument.  The repository also
    carries two earlier copies of the class, which differ in [callLift]
    and [moveLift]; they are embedded in the modules [Unguarded] and
    [Legacy] below.

    The JavaScript is single threaded.  An [async moveLift] runs up to its
    first [await], and each later piece runs when the timer it waits for
    fires.  The embedding keeps, next to the fields of the class, the list
    of suspended [moveLift] activations ([trips]); an event is either a
    click on a floor button or one of the pending timers firing.  Any
    pending timer may fire next; [timely] below singles out the schedules
    that respect the durations of the timers.

    Of the page, only the class 'open' of the lift doors is kept.  The
    highlighting of buttons and lift numbers ('pressed', 'in-use') and the
    position of the lift on the page are written by the controller and
    never read by it. *)

From Stdlib Require Import ZArith Lia Bool.
From stdpp Require Import list strings.

Local Open Scope Z_scope.

(** ** Data, as the constructor lays it out *)

(** [status] is one of the strings 'idle' and 'moving'. *)
Inductive Status := idle | moving.

(** An entry of [liftStates]: [{ currentFloor: 1, status: 'idle' }]. *)
Record LiftState := mkLiftState { currentFloor : Z; status : Status }.

(** The [direction] argument: 'up' or 'down'. *)
Inductive Direction := Up | Down.

(** An entry of [floorCalls]: [{ up: false, down: false }]. *)
Record FloorCall := mkFloorCall { up : bool; down : bool }.

(** An entry of [pendingCalls]: [{ floor, direction }]. *)
Record Call := mkCall { floor : Z; direction : Direction }.

(** The [await] at which an activation of [moveLift] is suspended: the
    travel timer, the first timer of [openCloseDoors] (doors open) or its
    second timer (doors closing). *)
Inductive Phase := Travelling | DoorsOpen | DoorsClosing.

(** A suspended activation of [moveLift(liftIndex, targetFloor)] and the
    time (ms) at which the timer it awaits is due. *)
Record Trip := mkTrip
  { liftIndex : nat; targetFloor : Z; phase : Phase; due : Z }.

(** The object: [liftStates], [floorCalls], [pendingCalls]; the door
    elements of each lift (whether they carry the class 'open'); and the
    activations in flight.  [this.lifts] is the length of [liftStates] and
    [this.floors + 1] the length of [floorCalls]; neither array is ever
    resized. *)
Record Sim := mkSim
  { liftStates : list LiftState;
    floorCalls : list FloorCall;
    pendingCalls : list Call;
    doorsOpen : list bool;
    trips : list Trip }.

#[global] Instance Status_eq_dec : EqDecision Status.
Proof. solve_decision. Defined.
#[global] Instance Direction_eq_dec : EqDecision Direction.
Proof. solve_decision. Defined.
#[global] Instance Phase_eq_dec : EqDecision Phase.
Proof. solve_decision. Defined.

Definition set_liftStates (ls : list LiftState) (s : Sim) : Sim :=
  mkSim ls (floorCalls s) (pendingCalls s) (doorsOpen s) (trips s).
Definition set_floorCalls (fc : list FloorCall) (s : Sim) : Sim :=
  mkSim (liftStates s) fc (pendingCalls s) (doorsOpen s) (trips s).
Definition set_pendingCalls (q : list Call) (s : Sim) : Sim :=
  mkSim (liftStates s) (floorCalls s) q (doorsOpen s) (trips s).
Definition set_doorsOpen (ds : list bool) (s : Sim) : Sim :=
  mkSim (liftStates s) (floorCalls s) (pendingCalls s) ds (trips s).
Definition set_trips (ts : list Trip) (s : Sim) : Sim :=
  mkSim (liftStates s) (floorCalls s) (pendingCalls s) (doorsOpen s) ts.

(** [floorCalls[floor]]: [undefined] (here [None]) outside the array. *)
Definition floorEntry (fc : list FloorCall) (floor : Z) : option FloorCall :=
  if floor <? 0 then None else fc !! Z.to_nat floor.

(** [entry[direction]] and [entry[direction] = b]. *)
Definition getFlag (c : FloorCall) (d : Direction) : bool :=
  match d with Up => up c | Down => down c end.
Definition setFlag (c : FloorCall) (d : Direction) (b : bool) : FloorCall :=
  match d with
  | Up => mkFloorCall b (down c)
  | Down => mkFloorCall (up c) b
  end.

(** Whether the button (floor, direction) is lit; [false] outside the
    array. *)
Definition flag (s : Sim) (f : Z) (d : Direction) : bool :=
  match floorEntry (floorCalls s) f with
  | Some c => getFlag c d
  | None => false
  end.

(** [constructor(floors, lifts)] (main.js, lines 11-17) and
    [createInitialState(floors, lifts)] of the functional files:
    every lift idle at floor 1, [floors + 1] unlit floor entries, no
    pending call.  ([Array(n)] throws for a negative [n]; the model has
    the empty array there.) *)
Definition createInitialState (floors lifts : Z) : Sim :=
  mkSim (replicate (Z.to_nat lifts) (mkLiftState 1 idle))
        (replicate (Z.to_nat (floors + 1)) (mkFloorCall false false))
        [] (replicate (Z.to_nat lifts) false) [].

(** ** findNearestIdleLift (main.js, lines 113-128; the same text in
    every copy) *)

(** [distance < minDistance], with [None] for [Infinity]. *)
Definition closer (distance : Z) (minDistance : option Z) : bool :=
  match minDistance with
  | None => true
  | Some m => distance <? m
  end.

(** One turn of the loop body at index [i]; the accumulator is
    [(nearestLift, minDistance)]. *)
Definition scanStep (floor : Z) (i : nat) (l : LiftState)
    (acc : Z * option Z) : Z * option Z :=
  match status l with
  | idle =>
      let distance := Z.abs (currentFloor l - floor) in
      if closer distance (snd acc) then (Z.of_nat i, Some distance) else acc
  | moving => acc
  end.

(** The loop [for (let i = 0; i < this.lifts; i++)] from index [i] on. *)
Fixpoint scanLifts (floor : Z) (i : nat) (ls : list LiftState)
    (acc : Z * option Z) : Z * option Z :=
  match ls with
  | [] => acc
  | l :: ls' => scanLifts floor (S i) ls' (scanStep floor i l acc)
  end.

(** [findNearestIdleLift(floor)]: the index of the chosen lift, or -1. *)
Definition findNearestIdleLift (s : Sim) (floor : Z) : Z :=
  fst (scanLifts floor 0 (liftStates s) (-1, None)).

(** ** moveLift (main.js, lines 135-178) and openCloseDoors (lines
    184-203), piece by piece *)

(** [moveLift] up to its first [await]: the lift is marked 'moving' and
    the travel timer of [floorsToMove * 2000] ms is set.  With no such
    lift, [liftState.status = ...] throws inside the async function and
    only rejects its promise: nothing has changed.  The elements that the
    function looks up (the lift, '.floor') are taken to be on the page;
    [renderSimulation] puts them there whenever the page has a floor.
    The delay is the number the code computes; [setTimeout] takes it as
    it is while it is below 2^31 ms, that is up to 1,073,741 floors of
    travel. *)
Definition moveLift (now : Z) (s : Sim) (liftIndex : nat) (targetFloor : Z)
    : Sim :=
  match liftStates s !! liftIndex with
  | None => s
  | Some liftState =>
      let floorsToMove := Z.abs (targetFloor - currentFloor liftState) in
      let moveTime := floorsToMove * 2000 in
      set_trips
        (trips s ++ [mkTrip liftIndex targetFloor Travelling (now + moveTime)])
        (set_liftStates
           (<[liftIndex := mkLiftState (currentFloor liftState) moving]>
              (liftStates s)) s)
  end.

(** [checkPendingCalls()] (main.js, lines 208-219): [shift] the first
    call; send the nearest idle lift, or [unshift] the call again. *)
Definition checkPendingCalls (now : Z) (s : Sim) : Sim :=
  match pendingCalls s with
  | [] => s
  | nextCall :: rest =>
      let s1 := set_pendingCalls rest s in
      let nearestLift := findNearestIdleLift s1 (floor nextCall) in
      if nearestLift =? -1
      then set_pendingCalls (nextCall :: pendingCalls s1) s1
      else moveLift now s1 (Z.to_nat nearestLift) (floor nextCall)
  end.

(** After the travel timer: [liftState.currentFloor = targetFloor], then
    [openCloseDoors] opens the doors and waits 2500 ms. *)
Definition arrive (s : Sim) (k : nat) (t : Trip) : Sim :=
  set_trips
    (<[k := mkTrip (liftIndex t) (targetFloor t) DoorsOpen (due t + 2500)]>
       (trips s))
    (set_doorsOpen (<[liftIndex t := true]> (doorsOpen s))
       (set_liftStates
          (alter (fun l => mkLiftState (targetFloor t) (status l))
             (liftIndex t) (liftStates s)) s)).

(** After the first door timer: the doors lose the class 'open' and
    [openCloseDoors] waits another 2500 ms. *)
Definition closeDoors (s : Sim) (k : nat) (t : Trip) : Sim :=
  set_trips
    (<[k := mkTrip (liftIndex t) (targetFloor t) DoorsClosing (due t + 2500)]>
       (trips s))
    (set_doorsOpen (<[liftIndex t := false]> (doorsOpen s)) s).

(** After the second door timer: the lift is 'idle' again, both flags of
    the target floor are put out and the pending calls are checked.  With
    no entry for the floor the first assignment throws and the activation
    ends there, the lift already idle. *)
Definition finish (s : Sim) (k : nat) (t : Trip) : Sim :=
  let s1 :=
    set_trips (delete k (trips s))
      (set_liftStates
         (alter (fun l => mkLiftState (currentFloor l) idle)
            (liftIndex t) (liftStates s)) s) in
  match floorEntry (floorCalls s1) (targetFloor t) with
  | None => s1
  | Some _ =>
      checkPendingCalls (due t)
        (set_floorCalls
           (<[Z.to_nat (targetFloor t) := mkFloorCall false false]>
              (floorCalls s1)) s1)
  end.

(** The continuation of the activation at position [k] of [trips], run
    when its timer fires. *)
Definition resume (s : Sim) (k : nat) (t : Trip) : Sim :=
  match phase t with
  | Travelling => arrive s k t
  | DoorsOpen => closeDoors s k t
  | DoorsClosing => finish s k t
  end.

(** ** callLift (main.js, lines 91-106) *)

(** [None] is the TypeError of [this.floorCalls[floor][direction]] when
    the floor has no entry; it is raised before anything is written. *)
Definition callLift (now : Z) (s : Sim) (floor : Z) (direction : Direction)
    : option Sim :=
  match floorEntry (floorCalls s) floor with
  | None => None
  | Some entry =>
      if getFlag entry direction then Some s
      else
        let s1 :=
          set_floorCalls
            (<[Z.to_nat floor := setFlag entry direction true]> (floorCalls s))
            s in
        let nearestLift := findNearestIdleLift s1 floor in
        if nearestLift =? -1
        then Some (set_pendingCalls
                     (pendingCalls s1 ++ [mkCall floor direction]) s1)
        else Some (moveLift now s1 (Z.to_nat nearestLift) floor)
  end.

(** ** The event loop *)

(** A click on the button (floor, direction) at time [at_ms], or the
    timer of the activation at position [k] of [trips] firing. *)
Inductive Event :=
  | Click (at_ms : Z) (floor : Z) (direction : Direction)
  | Fire (k : nat).

(** A handler that throws leaves the object as it was. *)
Definition step (s : Sim) (e : Event) : Sim :=
  match e with
  | Click now f d =>
      match callLift now s f d with Some s' => s' | None => s end
  | Fire k =>
      match trips s !! k with Some t => resume s k t | None => s end
  end.

Definition run (s : Sim) (evs : list Event) : Sim := fold_left step evs s.

(** The states the simulation can be in. *)
Inductive reachable : Sim -> Prop :=
  | reachable_init floors lifts :
      reachable (createInitialState floors lifts)
  | reachable_step s e : reachable s -> reachable (step s e).

(** A schedule respects the clock when no click and no timer is handled
    before a timer that was due earlier. *)
Definition noTimerBefore (t : Z) (s : Sim) : bool :=
  forallb (fun tr => t <=? due tr) (trips s).

Fixpoint timely (clock : Z) (s : Sim) (evs : list Event) : bool :=
  match evs with
  | [] => true
  | Click now f d :: evs' =>
      (clock <=? now) && noTimerBefore now s
      && timely now (step s (Click now f d)) evs'
  | Fire k :: evs' =>
      match trips s !! k with
      | None => false
      | Some t =>
          (clock <=? due t) && noTimerBefore (due t) s
          && timely (due t) (step s (Fire k)) evs'
      end
  end.

(** ** The earlier copy of the class in main.js (lines 249-445)

    It has the pending queue, and [moveLift], [openCloseDoors] and
    [checkPendingCalls] do what the current ones do; its [callLift]
    (lines 336-345) does not look at the flag before setting it. *)
Module Unguarded.

Definition callLift (now : Z) (s : Sim) (floor : Z) (direction : Direction)
    : option Sim :=
  match floorEntry (floorCalls s) floor with
  | None => None
  | Some entry =>
      let s1 :=
        set_floorCalls
          (<[Z.to_nat floor := setFlag entry direction true]> (floorCalls s))
          s in
      let nearestLift := findNearestIdleLift s1 floor in
      if nearestLift =? -1
      then Some (set_pendingCalls
                   (pendingCalls s1 ++ [mkCall floor direction]) s1)
      else Some (moveLift now s1 (Z.to_nat nearestLift) floor)
  end.

Definition step (s : Sim) (e : Event) : Sim :=
  match e with
  | Click now f d =>
      match callLift now s f d with Some s' => s' | None => s end
  | Fire k =>
      match trips s !! k with Some t => resume s k t | None => s end
  end.

Definition run (s : Sim) (evs : list Event) : Sim := fold_left step evs s.

Fixpoint timely (clock : Z) (s : Sim) (evs : list Event) : bool :=
  match evs with
  | [] => true
  | Click now f d :: evs' =>
      (clock <=? now) && noTimerBefore now s
      && timely now (step s (Click now f d)) evs'
  | Fire k :: evs' =>
      match trips s !! k with
      | None => false
      | Some t =>
          (clock <=? due t) && noTimerBefore (due t) s
          && timely (due t) (step s (Fire k)) evs'
      end
  end.

End Unguarded.

(** ** The first copy of the class (unnamed part 2)

    No [pendingCalls]; [callLift] (lines 59-65) sets the flag and moves a
    lift only if one is idle; [moveLift] (lines 84-104) marks the lift
    'idle' on arrival, before [openCloseDoors]. *)
Module Legacy.

Record Sim := mkSim
  { liftStates : list LiftState;
    floorCalls : list FloorCall;
    doorsOpen : list bool;
    trips : list Trip }.

Definition findNearestIdleLift (s : Sim) (floor : Z) : Z :=
  fst (scanLifts floor 0 (liftStates s) (-1, None)).

Definition createInitialState (floors lifts : Z) : Sim :=
  mkSim (replicate (Z.to_nat lifts) (mkLiftState 1 idle))
        (replicate (Z.to_nat (floors + 1)) (mkFloorCall false false))
        (replicate (Z.to_nat lifts) false) [].

Definition moveLift (now : Z) (s : Sim) (liftIndex : nat) (targetFloor : Z)
    : Sim :=
  match liftStates s !! liftIndex with
  | None => s
  | Some liftState =>
      let floorsToMove := Z.abs (targetFloor - currentFloor liftState) in
      let moveTime := floorsToMove * 2000 in
      mkSim
        (<[liftIndex := mkLiftState (currentFloor liftState) moving]>
           (liftStates s))
        (floorCalls s) (doorsOpen s)
        (trips s ++ [mkTrip liftIndex targetFloor Travelling (now + moveTime)])
  end.

Definition callLift (now : Z) (s : Sim) (floor : Z) (direction : Direction)
    : option Sim :=
  match floorEntry (floorCalls s) floor with
  | None => None
  | Some entry =>
      let s1 :=
        mkSim (liftStates s)
          (<[Z.to_nat floor := setFlag entry direction true]> (floorCalls s))
          (doorsOpen s) (trips s) in
      let nearestLift := findNearestIdleLift s1 floor in
      if nearestLift =? -1 then Some s1
      else Some (moveLift now s1 (Z.to_nat nearestLift) floor)
  end.

(** After the travel timer: [currentFloor = targetFloor],
    [status = 'idle'], then the doors open. *)
Definition arrive (s : Sim) (k : nat) (t : Trip) : Sim :=
  mkSim
    (alter (fun _ => mkLiftState (targetFloor t) idle)
       (liftIndex t) (liftStates s))
    (floorCalls s)
    (<[liftIndex t := true]> (doorsOpen s))
    (<[k := mkTrip (liftIndex t) (targetFloor t) DoorsOpen (due t + 2500)]>
       (trips s)).

Definition closeDoors (s : Sim) (k : nat) (t : Trip) : Sim :=
  mkSim (liftStates s) (floorCalls s)
    (<[liftIndex t := false]> (doorsOpen s))
    (<[k := mkTrip (liftIndex t) (targetFloor t) DoorsClosing (due t + 2500)]>
       (trips s)).

(** After the door timers: both flags of the target floor are put out. *)
Definition finish (s : Sim) (k : nat) (t : Trip) : Sim :=
  match floorEntry (floorCalls s) (targetFloor t) with
  | None => mkSim (liftStates s) (floorCalls s) (doorsOpen s)
              (delete k (trips s))
  | Some _ =>
      mkSim (liftStates s)
        (<[Z.to_nat (targetFloor t) := mkFloorCall false false]>
           (floorCalls s))
        (doorsOpen s) (delete k (trips s))
  end.

Definition resume (s : Sim) (k : nat) (t : Trip) : Sim :=
  match phase t with
  | Travelling => arrive s k t
  | DoorsOpen => closeDoors s k t
  | DoorsClosing => finish s k t
  end.

Definition step (s : Sim) (e : Event) : Sim :=
  match e with
  | Click now f d =>
      match callLift now s f d with Some s' => s' | None => s end
  | Fire k =>
      match trips s !! k with Some t => resume s k t | None => s end
  end.

Definition run (s : Sim) (evs : list Event) : Sim := fold_left step evs s.

Definition flag (s : Sim) (f : Z) (d : Direction) : bool :=
  match floorEntry (floorCalls s) f with
  | Some c => getFlag c d
  | None => false
  end.

Definition noTimerBefore (t : Z) (s : Sim) : bool :=
  forallb (fun tr => t <=? due tr) (trips s).

Fixpoint timely (clock : Z) (s : Sim) (evs : list Event) : bool :=
  match evs with
  | [] => true
  | Click now f d :: evs' =>
      (clock <=? now) && noTimerBefore now s
      && timely now (step s (Click now f d)) evs'
  | Fire k :: evs' =>
      match trips s !! k with
      | None => false
      | Some t =>
          (clock <=? due t) && noTimerBefore (due t) s
          && timely (due t) (step s (Fire k)) evs'
      end
  end.

End Legacy.

(** ** The start button *)

(** What [parseInt] returns: [NaN], an integer, or (for a digit string
    beyond the range of a double) [Infinity] or [-Infinity]. *)
Inductive Num := NaN | Int (z : Z) | PosInfinity | NegInfinity.

Definition isNaN (n : Num) : bool :=
  match n with NaN => true | _ => false end.

(** [n < k] and [n > k]; both are false for [NaN]. *)
Definition lessThan (n : Num) (k : Z) : bool :=
  match n with
  | NaN => false
  | Int z => z <? k
  | PosInfinity => false
  | NegInfinity => true
  end.
Definition greaterThan (n : Num) (k : Z) : bool :=
  match n with
  | NaN => false
  | Int z => k <? z
  | PosInfinity => true
  | NegInfinity => false
  end.

(** The page: the text of [#error-message] and the simulation whose
    buttons are rendered, if any. *)
Record Page := mkPage { errorMessage : string; simulation : option Sim }.

(** [Array(n)] returns an array for an integer [n] from 0 to 2^32 - 1 and
    throws a RangeError for every other number.  (This is the rule of the
    language; the memory of an engine is not modelled.) *)
Definition arrayLength (n : Z) : bool := (0 <=? n) && (n <=? 4294967295).

(** [new LiftSimulation(floors, lifts)], and [createInitialState(floors,
    lifts)] of the functional files: [Array(lifts)], then
    [Array(floors + 1)]; [None] is the RangeError of either. *)
Definition newSimulation (floors lifts : Num) : option Sim :=
  match floors, lifts with
  | Int f, Int l =>
      if arrayLength l && arrayLength (f + 1)
      then Some (createInitialState f l) else None
  | _, _ => None
  end.

(** The click handler of [#start-simulation] in main.js (lines 223-240). *)
Definition startSimulation (page : Page) (floors lifts : Num) : Page :=
  if isNaN floors || lessThan floors 2 || greaterThan floors 9
  then mkPage "Please enter a valid number of floors (2-9)."
         (simulation page)
  else if isNaN lifts || lessThan lifts 1 || greaterThan lifts 5
  then mkPage "Please enter a valid number of lifts (1-5)."
         (simulation page)
  else
    match newSimulation floors lifts with
    | Some sim => mkPage EmptyString (Some sim)
    | None => mkPage EmptyString (simulation page)
    end.

(** The functional copy with validation (unnamed part 1, lines 247-263). *)
Module Functional.

Definition startSimulation (page : Page) (floors lifts : Num) : Page :=
  if isNaN floors || lessThan floors 2
  then mkPage "Please enter a valid number of floors (Atleast 2)."
         (simulation page)
  else if isNaN lifts || lessThan lifts 1
  then mkPage "Please enter a valid number of lifts (Atleast 1)."
         (simulation page)
  else
    match newSimulation floors lifts with
    | Some sim => mkPage EmptyString (Some sim)
    | None => mkPage EmptyString (simulation page)
    end.

End Functional.

(** ** Predicates used in the statements *)

(** The distance the loop compares. *)
Definition dist (f : Z) (l : LiftState) : Z := Z.abs (currentFloor l - f).

(** What the accumulator of the loop knows about the lifts [pre] it has
    seen. *)
Definition scanned (f : Z) (pre : list LiftState) (acc : Z * option Z)
    : Prop :=
  match snd acc with
  | None =>
      fst acc = -1 /\
      forall j l, pre !! j = Some l -> status l = moving
  | Some d =>
      exists r l,
        fst acc = Z.of_nat r /\ pre !! r = Some l /\ status l = idle /\
        d = dist f l /\
        forall j lj, pre !! j = Some lj -> status lj = idle ->
          d <= dist f lj /\ ((j < r)%nat -> d < dist f lj)
  end.

(** The floor has an entry in [floorCalls]. *)
Definition inFloors (s : Sim) (f : Z) : Prop :=
  0 <= f < Z.of_nat (length (floorCalls s)).

(** Every activation in flight and every pending call is for a floor
    with an entry; no lift has two activations in flight; a lift is
    'moving' exactly while it has one. *)
Record Inv0 (s : Sim) : Prop := mkInv0
  { inv_targets : Forall (fun t => inFloors s (targetFloor t)) (trips s);
    inv_pending : Forall (fun c => inFloors s (floor c)) (pendingCalls s);
    inv_nodup : NoDup (liftIndex <$> trips s);
    inv_moving : forall i l, liftStates s !! i = Some l ->
      (status l = moving <-> i ∈ liftIndex <$> trips s);
    inv_lifts :
      Forall (fun i => (i < length (liftStates s))%nat)
        (liftIndex <$> trips s) }.

(** While a call is pending no lift is idle. *)
Definition allBusy (s : Sim) : Prop :=
  pendingCalls s <> [] ->
  forall i l, liftStates s !! i = Some l -> status l = moving.

Definition Inv (s : Sim) : Prop := Inv0 s /\ allBusy s.

(** The first half of [finish]: the lift marked idle, its activation
    gone. *)
Definition release (s : Sim) (k : nat) (t : Trip) : Sim :=
  set_trips (delete k (trips s))
    (set_liftStates
       (alter (fun l => mkLiftState (currentFloor l) idle)
          (liftIndex t) (liftStates s)) s).

(** The state in which [finish] checks the pending calls: the lift idle
    and both flags of its floor put out. *)
Definition cleared (s : Sim) (k : nat) (t : Trip) : Sim :=
  set_floorCalls
    (<[Z.to_nat (targetFloor t) := mkFloorCall false false]> (floorCalls s))
    (release s k t).

(** Lifts standing idle at the given floors, for small checks of the
    selection. *)
Definition liftsAt (fl : list Z) : Sim :=
  mkSim (map (fun f => mkLiftState f idle) fl) [] [] [] [].

(** The state [callLift] works in once it has lit the flag. *)
Definition lit (s : Sim) (f : Z) (d : Direction) (entry : FloorCall) : Sim :=
  set_floorCalls (<[Z.to_nat f := setFlag entry d true]> (floorCalls s)) s.

(** Every call in the queue has its flag lit. *)
Definition queueLit (s : Sim) : Prop :=
  forall c, c ∈ pendingCalls s -> flag s (floor c) (direction c) = true.

(** A monitor on the queue: what an event adds to it and what it takes
    from it, read off the queue before and after. *)
Definition arrival (s : Sim) (e : Event) : list Call :=
  drop (length (pendingCalls s)) (pendingCalls (step s e)).
Definition served (s : Sim) (e : Event) : list Call :=
  take (length (pendingCalls s) - length (pendingCalls (step s e)))
    (pendingCalls s).

Fixpoint arrivals (s : Sim) (evs : list Event) : list Call :=
  match evs with
  | [] => []
  | e :: evs' => arrival s e ++ arrivals (step s e) evs'
  end.

Fixpoint servedCalls (s : Sim) (evs : list Event) : list Call :=
  match evs with
  | [] => []
  | e :: evs' => served s e ++ servedCalls (step s e) evs'
  end.

(** Lift [i], idle in [s], is sent to floor [f]: [s'] is what [moveLift]
    leaves. *)
Definition dispatched (s s' : Sim) (i : nat) (f : Z) : Prop :=
  exists l now,
    liftStates s !! i = Some l /\ status l = idle /\ s' = moveLift now s i f.

(** The event is a timer firing (not a click). *)
Definition isTimer (e : Event) : Prop :=
  match e with Fire _ => True | Click _ _ _ => False end.

(** Floors in 2..9 and lifts in 1..5, both numbers. *)
Definition withinBounds (floors lifts : Num) : bool :=
  match floors, lifts with
  | Int f, Int l => (2 <=? f) && (f <=? 9) && (1 <=? l) && (l <=? 5)
  | _, _ => false
  end.

(** What the functional copy lets through: at least 2 floors and at
    least 1 lift, [Infinity] included. *)
Definition atLeast (n : Num) (k : Z) : bool :=
  match n with
  | Int z => k <=? z
  | PosInfinity => true
  | NaN | NegInfinity => false
  end.

Definition aboveMinimum (floors lifts : Num) : bool :=
  atLeast floors 2 && atLeast lifts 1.

(** Both numbers are integers that [Array] takes as a length: at most
    2^32 - 2 floors (the array has [floors + 1] entries) and at most
    2^32 - 1 lifts. *)
Definition fitsArray (floors lifts : Num) : bool :=
  match floors, lifts with
  | Int f, Int l => (f <=? 4294967294) && (l <=? 4294967295)
  | _, _ => false
  end.

(** ** States used as concrete inputs *)

(** Two lifts, three floors: both lifts are out (floors 2 and 3), the
    calls (1, up) and (2, down) wait, and the first lift is at its last
    door timer (due at 7000 ms). *)
Definition idleReactionEvents : list Event :=
  [Click 0 2 Up; Click 100 3 Down; Click 200 1 Up; Click 300 2 Down;
   Fire 0; Fire 1; Fire 0; Fire 1].
Definition idleReactionSim : Sim :=
  Eval vm_compute in run (createInitialState 3 2) idleReactionEvents.

(** One lift, three floors: the lift is on its way to floor 2 and the
    call (3, down) waits. *)
Definition queueLitEvents : list Event := [Click 0 2 Up; Click 100 3 Down].
Definition queueLitSim : Sim :=
  Eval vm_compute in run (createInitialState 3 1) queueLitEvents.

(** One lift, three floors: the calls (3, down) and (2, down) wait, and
    the lift is at floor 2, at its last door timer (due at 7000 ms). *)
Definition lastDoorEvents : list Event :=
  [Click 0 2 Up; Click 100 3 Down; Click 200 2 Down; Fire 0; Fire 0].
Definition lastDoorSim : Sim :=
  Eval vm_compute in run (createInitialState 3 1) lastDoorEvents.

(** One lift, three floors: the lift has served floor 2 while the call
    (2, down) was in the queue behind (3, down), has gone to floor 3 and
    is at its last door timer there (due at 14000 ms). *)
Definition drainEvents : list Event :=
  [Click 0 2 Up; Click 100 3 Down; Click 200 2 Down;
   Fire 0; Fire 0; Fire 0; Fire 0; Fire 0].
Definition drainSim : Sim :=
  Eval vm_compute in run (createInitialState 3 1) drainEvents.

(** ** Further predicates on states *)

#[global] Instance Trip_eq_dec : EqDecision Trip.
Proof. solve_decision. Defined.

(** Floor [f] is awaited: an activation in flight has it as its target,
    or a call for it is in the queue. *)
Definition awaited (s : Sim) (f : Z) : Prop :=
  (exists t, t ∈ trips s /\ targetFloor t = f) \/
  (exists c, c ∈ pendingCalls s /\ floor c = f).

(** Every lit flag is for an awaited floor. *)
Definition litAwaited (s : Sim) : Prop :=
  forall f d, flag s f d = true -> awaited s f.

(** The doors of a lift carry the class 'open' exactly while an
    activation of that lift waits at the first door timer. *)
Definition doorsMatch (s : Sim) : Prop :=
  length (doorsOpen s) = length (liftStates s) /\
  forall i, doorsOpen s !! i = Some true <->
    exists t, t ∈ trips s /\ liftIndex t = i /\ phase t = DoorsOpen.

(** Nothing is going on: no activation in flight, no call pending, every
    lift idle with its doors shut, every flag out. *)
Definition atRest (s : Sim) : Prop :=
  trips s = [] /\ pendingCalls s = [] /\
  (forall i l, liftStates s !! i = Some l ->
     status l = idle /\ doorsOpen s !! i = Some false) /\
  (forall f d, flag s f d = false).

(** The timers an activation of [moveLift] still waits for, the present
    one included: the travel timer, the timer of the open doors and the
    timer of the closing doors. *)
Definition phaseLeft (p : Phase) : nat :=
  match p with
  | Travelling => 3
  | DoorsOpen => 2
  | DoorsClosing => 1
  end.

(** The timer callbacks still to come if nobody presses a button: those
    of the activations in flight and three for every call in the queue. *)
Definition timersLeft (s : Sim) : nat :=
  3 * length (pendingCalls s)
  + sum_list_with (fun t => phaseLeft (phase t)) (trips s).

(** A sequence of callbacks of timers that are pending when they fire. *)
Fixpoint firesPending (s : Sim) (evs : list Event) : bool :=
  match evs with
  | [] => true
  | Fire k :: rest =>
      bool_decide (k < length (trips s))%nat
      && firesPending (step s (Fire k)) rest
  | Click _ _ _ :: _ => false
  end.

(** An activation past its travel timer has its lift at the target
    floor. *)
Definition arrived (s : Sim) : Prop :=
  forall t, t ∈ trips s -> phase t <> Travelling ->
    exists l, liftStates s !! liftIndex t = Some l /\
      currentFloor l = targetFloor t.

(** The button of floor [f] has been pressed in the run [evs]. *)
Definition called (evs : list Event) (f : Z) : Prop :=
  exists now d, Click now f d ∈ evs.

(** Nothing in the state [s] is for a floor that was not called in
    [evs]: no activation, no queued call, no lit flag; and a lift stands
    at floor 1, where it started, or at a floor that was called. *)
Definition calledOnly (evs : list Event) (s : Sim) : Prop :=
  (forall t, t ∈ trips s -> called evs (targetFloor t)) /\
  (forall c, c ∈ pendingCalls s ->
     exists now, Click now (floor c) (direction c) ∈ evs) /\
  (forall f d, flag s f d = true -> exists now, Click now f d ∈ evs) /\
  (forall i l, liftStates s !! i = Some l ->
     currentFloor l = 1 \/ called evs (currentFloor l)).

(** ** renderSimulation (main.js, lines 32-67) and attachEventListeners
    (lines 72-84); the same text in the functional files *)

(** A [<button class="up-button" data-floor="i">] or its 'down'
    counterpart. *)
Record Button := mkButton { buttonClass : Direction; dataFloor : Z }.

(** A [<div class="lift" id="lift-n">] with [style.bottom] in px and the
    text of its 'lift-number'. *)
Record LiftElem := mkLiftElem { liftId : Z; liftNumber : Z; bottom : Z }.

(** A [<div class="floor">]: its buttons, the number in 'Floor i', and
    one lift shaft per lift, with or without a lift in it. *)
Record FloorElem := mkFloorElem
  { floorButtons : list Button;
    floorNumber : Z;
    liftShafts : list (option LiftElem) }.

#[global] Instance Button_eq_dec : EqDecision Button.
Proof. solve_decision. Defined.
#[global] Instance LiftElem_eq_dec : EqDecision LiftElem.
Proof. solve_decision. Defined.

(** The body of the inner loop: the shaft of lift [j] at floor [i]. *)
Definition renderShaft (i j : Z) : option LiftElem :=
  if i =? 1 then Some (mkLiftElem (j + 1) (j + 1) 0) else None.

(** The body of the outer loop: floor [i]. *)
Definition renderFloor (floors lifts i : Z) : FloorElem :=
  mkFloorElem
    ((if i <? floors then [mkButton Up i] else [])
     ++ (if 1 <? i then [mkButton Down i] else []))
    i
    (renderShaft i <$> seqZ 0 lifts).

(** [renderSimulation()]: the children of '#simulation-container', in
    the order in which they are appended. *)
Definition renderSimulation (floors lifts : Z) : list FloorElem :=
  renderFloor floors lifts <$> seqZ 1 floors.

(** [document.querySelectorAll('.up-button, .down-button')]. *)
Definition buttons (container : list FloorElem) : list Button :=
  container ≫= floorButtons.

(** The lift elements of the page, in document order. *)
Definition liftElems (container : list FloorElem) : list LiftElem :=
  container ≫= (fun fl => omap id (liftShafts fl)).

(** [document.getElementById(`lift-${n}`)]. *)
Definition getLiftById (container : list FloorElem) (n : Z)
    : option LiftElem :=
  snd <$> list_find (fun e => liftId e = n) (liftElems container).

(** [handleEvent], the listener that [attachEventListeners] puts on a
    button, for 'click' and for 'touchstart'. *)
Definition handleEvent (b : Button) (now : Z) (s : Sim) : option Sim :=
  callLift now s (dataFloor b) (buttonClass b).

(** The event comes from the page: a click is the listener of one of the
    buttons of the page. *)
Definition fromPage (container : list FloorElem) (e : Event) : bool :=
  match e with
  | Click _ f d => bool_decide (mkButton d f ∈ buttons container)
  | Fire _ => true
  end.

(** A run in which every click comes from the page. *)
Definition pageRun (container : list FloorElem) (evs : list Event) : bool :=
  forallb (fromPage container) evs.

(** ** Starting without validation *)

(** [initSimulation(floors, lifts)] of main_functional.js (lines
    208-212), which its start handler calls on whatever [parseInt] gave
    (lines 215-219), and [new LiftSimulation(floors, lifts)] followed by
    [init()] in the handlers of main.js that do not validate (lines
    243-248 and 440-445): the new state and the page rendered for it.
    [None] is the RangeError of [Array(lifts)] or [Array(floors + 1)]:
    the length is NaN, infinite, negative or above 2^32 - 1. *)
Definition initSimulation (floors lifts : Num)
    : option (Sim * list FloorElem) :=
  match floors, lifts with
  | Int f, Int l =>
      if arrayLength l && arrayLength (f + 1)
      then Some (createInitialState f l, renderSimulation f l)
      else None
  | _, _ => None
  end.

(** ** The functional copy with the shorter door time *)

(** [openCloseDoors] of the unnamed part 1 (lines 104-142) keeps the
    doors open for 2000 ms where the class waits 2500 ms; its [moveLift],
    [callLift] and [checkPendingCalls] are those of the class with the
    state passed as an argument. *)
Module FunctionalDoors.

Definition arrive (s : Sim) (k : nat) (t : Trip) : Sim :=
  set_trips
    (<[k := mkTrip (liftIndex t) (targetFloor t) DoorsOpen (due t + 2000)]>
       (trips s))
    (set_doorsOpen (<[liftIndex t := true]> (doorsOpen s))
       (set_liftStates
          (alter (fun l => mkLiftState (targetFloor t) (status l))
             (liftIndex t) (liftStates s)) s)).

Definition resume (s : Sim) (k : nat) (t : Trip) : Sim :=
  match phase t with
  | Travelling => arrive s k t
  | DoorsOpen => closeDoors s k t
  | DoorsClosing => finish s k t
  end.

Definition step (s : Sim) (e : Event) : Sim :=
  match e with
  | Click now f d =>
      match callLift now s f d with Some s' => s' | None => s end
  | Fire k =>
      match trips s !! k with Some t => resume s k t | None => s end
  end.

Definition run (s : Sim) (evs : list Event) : Sim := fold_left step evs s.

End FunctionalDoors.

(** The state without the times at which the pending timers are due. *)
Definition untimedTrip (t : Trip) : Trip :=
  mkTrip (liftIndex t) (targetFloor t) (phase t) 0.

Definition untimed (s : Sim) : Sim :=
  set_trips (untimedTrip <$> trips s) s.

(** The state with the flag of the button (f, d) put out. *)
Definition unlit (s : Sim) (f : Z) (d : Direction) : Sim :=
  match floorEntry (floorCalls s) f with
  | None => s
  | Some entry =>
      set_floorCalls
        (<[Z.to_nat f := setFlag entry d false]> (floorCalls s)) s
  end.
(** * Theorems *)

(** ** The selection loop *)

Section Scan.
Variable f : Z.


Lemma scanned_step pre l acc :
  scanned f pre acc -> scanned f (pre ++ [l]) (scanStep f (length pre) l acc).
Proof.
  unfold scanned, scanStep. intros H.
  destruct (status l) eqn:Hst.
  - (* idle *)
    destruct acc as [r [m|]]; simpl in *.
    + destruct H as (r0 & l0 & -> & Hl0 & Hi0 & -> & Hmin).
      pose proof (lookup_lt_Some _ _ _ Hl0) as Hlt.
      destruct (Z.ltb_spec (Z.abs (currentFloor l - f)) (dist f l0)) as [Hc|Hc]; simpl.
      * exists (length pre), l. split; [done|]. split.
        { by rewrite lookup_app_r, Nat.sub_diag. }
        split; [done|]. split; [done|].
        intros j lj Hj Hidle.
        destruct (decide (j < length pre)%nat) as [Hjlt|Hjge].
        -- rewrite lookup_app_l in Hj by done.
           destruct (Hmin j lj Hj Hidle) as [Hle _]. unfold dist in *. lia.
        -- rewrite lookup_app_r in Hj by lia.
           assert (j = length pre) as ->.
           { apply lookup_lt_Some in Hj. simpl in Hj. lia. }
           rewrite Nat.sub_diag in Hj. simpl in Hj. injection Hj as <-.
           unfold dist. lia.
      * exists r0, l0. split; [done|]. split.
        { by rewrite lookup_app_l. }
        split; [done|]. split; [done|].
        intros j lj Hj Hidle.
        destruct (decide (j < length pre)%nat) as [Hjlt|Hjge].
        -- rewrite lookup_app_l in Hj by done. by apply Hmin.
        -- rewrite lookup_app_r in Hj by lia.
           assert (j = length pre) as ->.
           { apply lookup_lt_Some in Hj. simpl in Hj. lia. }
           rewrite Nat.sub_diag in Hj. simpl in Hj. injection Hj as <-.
           unfold dist in *. lia.
    + destruct H as [_ Hall]. exists (length pre), l.
      split; [done|]. split.
      { by rewrite lookup_app_r, Nat.sub_diag. }
      split; [done|]. split; [done|].
      intros j lj Hj Hidle.
      destruct (decide (j < length pre)%nat) as [Hjlt|Hjge].
      * rewrite lookup_app_l in Hj by done.
        apply Hall in Hj. congruence.
      * rewrite lookup_app_r in Hj by lia.
        assert (j = length pre) as ->.
        { apply lookup_lt_Some in Hj. simpl in Hj. lia. }
        rewrite Nat.sub_diag in Hj. simpl in Hj. injection Hj as <-.
        unfold dist. lia.
  - (* moving *)
    destruct (snd acc) as [m|].
    + destruct H as (r0 & l0 & Hr & Hl0 & Hi0 & -> & Hmin).
      pose proof (lookup_lt_Some _ _ _ Hl0) as Hlt.
      exists r0, l0. split; [done|]. split.
      { by rewrite lookup_app_l. }
      split; [done|]. split; [done|].
      intros j lj Hj Hidle.
      destruct (decide (j < length pre)%nat) as [Hjlt|Hjge].
      * rewrite lookup_app_l in Hj by done. by apply Hmin.
      * rewrite lookup_app_r in Hj by lia.
        assert (j = length pre) as ->.
        { apply lookup_lt_Some in Hj. simpl in Hj. lia. }
        rewrite Nat.sub_diag in Hj. simpl in Hj. injection Hj as <-.
        congruence.
    + destruct H as [Hr Hall]. split; [done|].
      intros j lj Hj.
      destruct (decide (j < length pre)%nat) as [Hjlt|Hjge].
      * rewrite lookup_app_l in Hj by done. by eapply Hall.
      * rewrite lookup_app_r in Hj by lia.
        assert (j = length pre) as ->.
        { apply lookup_lt_Some in Hj. simpl in Hj. lia. }
        rewrite Nat.sub_diag in Hj. simpl in Hj. by injection Hj as <-.
Qed.

Lemma scanned_loop ls : forall pre acc,
  scanned f pre acc -> scanned f (pre ++ ls) (scanLifts f (length pre) ls acc).
Proof.
  induction ls as [|l ls IH]; intros pre acc H; simpl.
  - by rewrite app_nil_r.
  - replace (pre ++ l :: ls) with ((pre ++ [l]) ++ ls) by by rewrite <- app_assoc.
    replace (S (length pre)) with (length (pre ++ [l])).
    2:{ rewrite length_app. simpl. lia. }
    apply IH. by apply scanned_step.
Qed.
End Scan.
Lemma scan_result (s : Sim) (f : Z) :
  scanned f (liftStates s) (scanLifts f 0 (liftStates s) (-1, None)).
Proof.
  apply (scanned_loop f (liftStates s) [] (-1, None)).
  split; [done|]. intros j l Hj. by rewrite lookup_nil in Hj.
Qed.

(** The lift chosen is idle. *)
Lemma nearest_idle (s : Sim) (f : Z) :
  findNearestIdleLift s f <> -1 ->
  exists r l, findNearestIdleLift s f = Z.of_nat r /\
    liftStates s !! r = Some l /\ status l = idle.
Proof.
  unfold findNearestIdleLift. pose proof (scan_result s f) as H.
  unfold scanned in H.
  destruct (snd (scanLifts f 0 (liftStates s) (-1, None))).
  - destruct H as (r & l & Hr & Hl & Hi & _). intros _. by exists r, l.
  - destruct H as [Hr _]. by intros [].
Qed.

(** -1 is returned only when every lift is moving. *)
Lemma nearest_none_moving (s : Sim) (f : Z) :
  findNearestIdleLift s f = -1 ->
  forall j l, liftStates s !! j = Some l -> status l = moving.
Proof.
  unfold findNearestIdleLift. pose proof (scan_result s f) as H.
  unfold scanned in H.
  destruct (snd (scanLifts f 0 (liftStates s) (-1, None))).
  - destruct H as (r & l & Hr & _). lia.
  - destruct H as [_ Hall]. intros _. exact Hall.
Qed.

(** C2. [findNearestIdleLift] returns -1 exactly when no lift is idle;
    when some lift is idle it returns the index of an idle lift whose
    distance [abs (currentFloor - floor)] is least among the idle lifts,
    and every idle lift at that same distance has an index at least as
    large (the first one met in index order wins a tie). *)
Theorem findNearestIdleLift_nearest (s : Sim) (f : Z) :
  (findNearestIdleLift s f = -1 <->
     forall j l, liftStates s !! j = Some l -> status l <> idle) /\
  ((exists j l, liftStates s !! j = Some l /\ status l = idle) ->
   exists r l,
     findNearestIdleLift s f = Z.of_nat r /\
     liftStates s !! r = Some l /\ status l = idle /\
     forall j lj, liftStates s !! j = Some lj -> status lj = idle ->
       Z.abs (currentFloor l - f) <= Z.abs (currentFloor lj - f) /\
       (Z.abs (currentFloor lj - f) = Z.abs (currentFloor l - f) ->
        (r <= j)%nat)).
Proof.
  unfold findNearestIdleLift. pose proof (scan_result s f) as H.
  unfold scanned in H.
  destruct (snd (scanLifts f 0 (liftStates s) (-1, None))) as [d|].
  - destruct H as (r & l & Hr & Hl & Hi & -> & Hmin). split.
    + split; [lia|]. intros Hall. by destruct (Hall r l Hl).
    + intros _. exists r, l. split; [done|]. split; [done|]. split; [done|].
      intros j lj Hj Hidle. destruct (Hmin j lj Hj Hidle) as [Hle Hlt].
      unfold dist in *. split; [done|].
      intros Heq. destruct (decide (r <= j)%nat); [done|]. lia.
  - destruct H as [Hr Hall]. split.
    + split; [|done]. intros _ j l Hj. rewrite (Hall j l Hj). done.
    + intros (j & l & Hj & Hi). rewrite (Hall j l Hj) in Hi. done.
Qed.

(** Lifts idle at floors 1, 5 and 9, a call for floor 6: the lift at
    floor 5 (index 1).  Lifts idle at floors 3 and 7, a call for floor 5:
    both at distance 2, the first one (index 0).  No lift: -1. *)
Example nearest_examples :
  findNearestIdleLift (liftsAt [1; 5; 9]) 6 = 1 /\
  findNearestIdleLift (liftsAt [3; 7]) 5 = 0 /\
  findNearestIdleLift (liftsAt []) 5 = -1.
Proof. repeat split. Qed.
(** ** Invariants of the reachable states *)

Lemma delete_nodup_elem {A} (l : list A) (k : nat) (x y : A) :
  NoDup l -> l !! k = Some x -> (y ∈ delete k l <-> y ∈ l /\ y <> x).
Proof.
  intros Hnd Hk. rewrite delete_take_drop.
  rewrite <- (take_drop_middle l k x Hk) in Hnd at 1.
  rewrite <- (take_drop_middle l k x Hk) at 3.
  apply NoDup_app in Hnd as (_ & Hdisj & Hnd).
  apply NoDup_cons in Hnd as [Hx _].
  rewrite !elem_of_app, elem_of_cons. split.
  - intros [Hy|Hy].
    + split; [by left|]. intros ->. apply (Hdisj x Hy). by left.
    + split; [by right; right|]. by intros ->.
  - intros [[Hy|[Hy|Hy]] Hne]; [by left|done|by right].
Qed.

Lemma floorEntry_is_Some (fc : list FloorCall) (f : Z) :
  is_Some (floorEntry fc f) <-> 0 <= f < Z.of_nat (length fc).
Proof.
  unfold floorEntry. destruct (Z.ltb_spec f 0).
  - split; [by intros [? ?]|lia].
  - rewrite lookup_lt_is_Some. lia.
Qed.

Lemma floorEntry_None (fc : list FloorCall) (f : Z) :
  floorEntry fc f = None -> ~ (0 <= f < Z.of_nat (length fc)).
Proof.
  intros H Hr. apply floorEntry_is_Some in Hr. rewrite H in Hr.
  by destruct Hr.
Qed.

Lemma Inv0_init (floors lifts : Z) :
  Inv0 (createInitialState floors lifts).
Proof.
  split; simpl; try by constructor.
  intros i l Hl. apply lookup_replicate in Hl as [-> _]. simpl.
  split; [done|]. intros H. by apply elem_of_nil in H.
Qed.

Lemma moveLift_Inv0 now s i l f :
  Inv0 s -> liftStates s !! i = Some l -> status l = idle -> inFloors s f ->
  Inv0 (moveLift now s i f).
Proof.
  intros [Ht Hp Hnd Hmv Hl] Hi Hidle Hf. unfold moveLift. rewrite Hi.
  assert (i ∉ liftIndex <$> trips s) as Hnot.
  { intros Hin. apply (Hmv i l Hi) in Hin. congruence. }
  split; simpl.
  - apply Forall_app. split; [done|]. by apply Forall_singleton.
  - done.
  - rewrite fmap_app. apply NoDup_app. split; [done|]. split.
    + intros x Hx Hx'. simpl in Hx'. apply list_elem_of_singleton in Hx'.
      by subst.
    + apply NoDup_singleton.
  - intros j l' Hj. rewrite fmap_app, elem_of_app. simpl.
    rewrite list_elem_of_singleton.
    apply list_lookup_insert_Some in Hj as [(-> & <- & _)|[Hne Hj]]; simpl.
    + split; [by right|done].
    + rewrite (Hmv j l' Hj). split; [by left|]. intros [?|?]; [done|].
      by subst.
  - rewrite fmap_app. apply Forall_app. rewrite length_insert. split; [done|].
    apply Forall_singleton. by eapply lookup_lt_Some.
Qed.

Lemma fmap_liftIndex_insert (ts : list Trip) k t t' :
  ts !! k = Some t -> liftIndex t' = liftIndex t ->
  liftIndex <$> <[k := t']> ts = liftIndex <$> ts.
Proof.
  intros Hk He. rewrite list_fmap_insert. apply list_insert_id.
  by rewrite list_lookup_fmap, Hk, He.
Qed.

Lemma arrive_Inv0 s k t :
  Inv0 s -> trips s !! k = Some t -> Inv0 (arrive s k t).
Proof.
  intros [Ht Hp Hnd Hmv Hl] Hk. unfold arrive.
  split; simpl; try rewrite (fmap_liftIndex_insert _ k t) by done.
  - apply Forall_insert; [done|]. simpl.
    by apply (Forall_lookup_1 _ _ _ _ Ht Hk).
  - done.
  - done.
  - intros j l' Hj. rewrite list_lookup_alter in Hj.
    destruct (decide (liftIndex t = j)) as [->|Hne].
    + destruct (liftStates s !! j) as [l0|] eqn:Hl0; [|done].
      simpl in Hj. injection Hj as <-. simpl. by apply Hmv.
    + by apply Hmv.
  - by rewrite length_alter.
Qed.

Lemma closeDoors_Inv0 s k t :
  Inv0 s -> trips s !! k = Some t -> Inv0 (closeDoors s k t).
Proof.
  intros [Ht Hp Hnd Hmv Hl] Hk. unfold closeDoors.
  split; simpl; try rewrite (fmap_liftIndex_insert _ k t) by done; try done.
  apply Forall_insert; [done|]. simpl.
  by apply (Forall_lookup_1 _ _ _ _ Ht Hk).
Qed.

Lemma release_Inv0 s k t :
  Inv0 s -> trips s !! k = Some t -> Inv0 (release s k t).
Proof.
  intros [Ht Hp Hnd Hmv Hl] Hk. unfold release.
  assert ((liftIndex <$> trips s) !! k = Some (liftIndex t)) as Hk'.
  { by rewrite list_lookup_fmap, Hk. }
  split; simpl; try rewrite list_fmap_delete.
  - by apply Forall_delete.
  - done.
  - eapply sublist_NoDup; [done|apply sublist_delete].
  - intros j l' Hj. rewrite (delete_nodup_elem _ _ _ _ Hnd Hk').
    rewrite list_lookup_alter in Hj.
    destruct (decide (liftIndex t = j)) as [->|Hne].
    + destruct (liftStates s !! j) as [l0|] eqn:Hl0; [|done].
      simpl in Hj. injection Hj as <-. simpl. split; [done|].
      by intros [_ ?].
    + rewrite (Hmv j l' Hj). split; [by intros ?|by intros [? _]].
  - rewrite length_alter. by apply Forall_delete.
Qed.

Lemma trip_lift_lt s k t :
  Inv0 s -> trips s !! k = Some t ->
  (liftIndex t < length (liftStates s))%nat.
Proof.
  intros HI Hk. pose proof (inv_lifts s HI) as H.
  rewrite Forall_lookup in H. apply (H k).
  by rewrite list_lookup_fmap, Hk.
Qed.

Lemma trip_target_inFloors s k t :
  Inv0 s -> trips s !! k = Some t -> inFloors s (targetFloor t).
Proof.
  intros HI Hk. pose proof (inv_targets s HI) as H.
  rewrite Forall_lookup in H. by apply (H k).
Qed.

Lemma Inv0_frame s s' :
  Inv0 s -> liftStates s' = liftStates s -> trips s' = trips s ->
  length (floorCalls s') = length (floorCalls s) ->
  Forall (fun c => inFloors s' (floor c)) (pendingCalls s') -> Inv0 s'.
Proof.
  intros [Ht Hp Hnd Hmv Hl] El Et Ef Hq.
  split; rewrite ?El, ?Et; try done.
  eapply Forall_impl; [exact Ht|]. intros t. unfold inFloors. by rewrite Ef.
Qed.

Lemma finish_release s k t :
  finish s k t =
  match floorEntry (floorCalls s) (targetFloor t) with
  | None => release s k t
  | Some _ =>
      checkPendingCalls (due t)
        (set_floorCalls
           (<[Z.to_nat (targetFloor t) := mkFloorCall false false]>
              (floorCalls s)) (release s k t))
  end.
Proof. reflexivity. Qed.

Lemma finish_cleared s k t :
  Inv0 s -> trips s !! k = Some t ->
  finish s k t = checkPendingCalls (due t) (cleared s k t).
Proof.
  intros HI Hk. rewrite finish_release.
  pose proof (trip_target_inFloors s k t HI Hk) as Hf.
  apply floorEntry_is_Some in Hf as [e He]. by rewrite He.
Qed.

Lemma cleared_Inv0 s k t :
  Inv0 s -> trips s !! k = Some t -> Inv0 (cleared s k t).
Proof.
  intros HI Hk. apply (Inv0_frame (release s k t)).
  - by apply release_Inv0.
  - done.
  - done.
  - simpl. by rewrite length_insert.
  - unfold inFloors. simpl. rewrite length_insert. apply (inv_pending s HI).
Qed.

(** When a lift finishes while a call is pending, that lift is the only
    idle one, so the head of the queue goes to it. *)
Lemma finish_serves_head s k t c rest :
  Inv s -> trips s !! k = Some t -> pendingCalls s = c :: rest ->
  finish s k t =
  moveLift (due t) (set_pendingCalls rest (cleared s k t))
    (liftIndex t) (floor c).
Proof.
  intros [HI HB] Hk Hq. rewrite finish_cleared by done.
  unfold checkPendingCalls. simpl. rewrite Hq.
  set (s1 := set_pendingCalls rest (cleared s k t)).
  assert (liftIndex t < length (liftStates s))%nat as Hlt.
  { by eapply trip_lift_lt. }
  apply lookup_lt_is_Some in Hlt as [l0 Hl0].
  assert (liftStates s1 !! liftIndex t
          = Some (mkLiftState (currentFloor l0) idle)) as Hidle.
  { simpl. by rewrite list_lookup_alter_eq, Hl0. }
  destruct (Z.eqb_spec (findNearestIdleLift s1 (floor c)) (-1)) as [E|E].
  - pose proof (nearest_none_moving s1 (floor c) E _ _ Hidle). done.
  - destruct (nearest_idle s1 (floor c) E) as (r & l & -> & Hr & Hri).
    rewrite Nat2Z.id. destruct (decide (r = liftIndex t)) as [->|Hne]; [done|].
    simpl in Hr. rewrite list_lookup_alter_ne in Hr by done.
    assert (pendingCalls s <> []) as Hne' by by rewrite Hq.
    rewrite (HB Hne' r l Hr) in Hri. done.
Qed.

Lemma finish_idle_queue s k t :
  Inv0 s -> trips s !! k = Some t -> pendingCalls s = [] ->
  finish s k t = cleared s k t.
Proof.
  intros HI Hk Hq. rewrite finish_cleared by done.
  unfold checkPendingCalls. simpl. by rewrite Hq.
Qed.

Lemma finish_Inv s k t :
  Inv s -> trips s !! k = Some t -> Inv (finish s k t).
Proof.
  intros HI Hk. pose proof HI as [HI0 HB].
  destruct (pendingCalls s) as [|c rest] eqn:Hq.
  - rewrite finish_idle_queue by done. split.
    + by apply cleared_Inv0.
    + intros Hne. simpl in Hne. by rewrite Hq in Hne.
  - rewrite (finish_serves_head s k t c rest) by done.
    assert (liftIndex t < length (liftStates s))%nat as Hlt.
    { by eapply trip_lift_lt. }
    apply lookup_lt_is_Some in Hlt as [l0 Hl0].
    pose proof (cleared_Inv0 s k t HI0 Hk) as HC.
    assert (Forall (fun c0 => inFloors s (floor c0)) (c :: rest)) as Hfl.
    { rewrite <- Hq. apply (inv_pending s HI0). }
    apply Forall_cons in Hfl as [Hc Hrest].
    set (s1 := set_pendingCalls rest (cleared s k t)).
    assert (Inv0 s1) as HI1.
    { apply (Inv0_frame (cleared s k t)); try done.
      unfold inFloors. simpl. by rewrite length_insert. }
    assert (liftStates s1 !! liftIndex t
            = Some (mkLiftState (currentFloor l0) idle)) as Hidle.
    { simpl. by rewrite list_lookup_alter_eq, Hl0. }
    split.
    + eapply moveLift_Inv0; [done|exact Hidle|done|].
      unfold inFloors. simpl. by rewrite length_insert.
    + intros _ i l. unfold moveLift. rewrite Hidle. simpl.
      intros Hi.
      apply list_lookup_insert_Some in Hi as [(-> & <- & _)|[Hne Hi]];
        [done|].
      rewrite list_lookup_alter_ne in Hi by done.
      apply (HB ltac:(by rewrite Hq) i l Hi).
Qed.

Lemma callLift_Inv now s f d s' :
  Inv s -> callLift now s f d = Some s' -> Inv s'.
Proof.
  intros [HI HB]. unfold callLift.
  destruct (floorEntry (floorCalls s) f) as [e|] eqn:He; [|done].
  assert (inFloors s f) as Hf.
  { apply floorEntry_is_Some. by rewrite He. }
  destruct (getFlag e d); [by intros [= <-]|].
  set (s1 := set_floorCalls _ s).
  assert (Inv0 s1) as HI1.
  { apply (Inv0_frame s); try done.
    - simpl. by rewrite length_insert.
    - unfold inFloors. simpl. rewrite length_insert. apply (inv_pending s HI). }
  assert (inFloors s1 f) as Hf1.
  { unfold inFloors. simpl. by rewrite length_insert. }
  destruct (Z.eqb_spec (findNearestIdleLift s1 f) (-1)) as [E|E];
    intros [= <-].
  - split.
    + apply (Inv0_frame s1); try done. simpl.
      apply Forall_app. split; [apply (inv_pending s1 HI1)|].
      by apply Forall_singleton.
    + intros _. apply (nearest_none_moving s1 f E).
  - destruct (nearest_idle s1 f E) as (r & l & -> & Hr & Hri).
    rewrite Nat2Z.id. split.
    + by eapply moveLift_Inv0.
    + intros Hne. unfold moveLift in Hne. rewrite Hr in Hne. simpl in Hne.
      rewrite (HB Hne r l Hr) in Hri. done.
Qed.

Lemma step_Inv s e : Inv s -> Inv (step s e).
Proof.
  intros HI. destruct e as [now f d|k]; simpl.
  - destruct (callLift now s f d) as [s'|] eqn:E; [|done].
    by eapply callLift_Inv.
  - destruct (trips s !! k) as [t|] eqn:Hk; [|done].
    unfold resume. destruct (phase t).
    + destruct HI as [HI HB]. split; [by apply arrive_Inv0|].
      intros Hne i l Hi. simpl in *. rewrite list_lookup_alter in Hi.
      destruct (decide (liftIndex t = i)) as [->|Hn].
      * destruct (liftStates s !! i) as [l0|] eqn:Hl0; [|done].
        simpl in Hi. injection Hi as <-. simpl. by apply (HB Hne i l0).
      * by apply (HB Hne i l).
    + destruct HI as [HI HB]. split; [by apply closeDoors_Inv0|].
      intros Hne i l Hi. by apply (HB Hne i l).
    + by apply finish_Inv.
Qed.

Lemma reachable_Inv s : reachable s -> Inv s.
Proof.
  induction 1 as [floors lifts|s e _ IH].
  - split; [apply Inv0_init|]. intros H. by simpl in H.
  - by apply step_Inv.
Qed.

(** ** The registry of floor calls *)

Lemma floorEntry_Some_range (fc : list FloorCall) (f : Z) (e : FloorCall) :
  floorEntry fc f = Some e -> 0 <= f < Z.of_nat (length fc).
Proof. intros H. apply floorEntry_is_Some. by rewrite H. Qed.

Lemma floorEntry_insert_eq (fc : list FloorCall) (f : Z) (x : FloorCall) :
  0 <= f < Z.of_nat (length fc) ->
  floorEntry (<[Z.to_nat f := x]> fc) f = Some x.
Proof.
  intros Hf. unfold floorEntry. destruct (Z.ltb_spec f 0); [lia|].
  apply list_lookup_insert_eq. lia.
Qed.

Lemma floorEntry_insert_ne (fc : list FloorCall) (f g : Z) (x : FloorCall) :
  0 <= f -> f <> g ->
  floorEntry (<[Z.to_nat f := x]> fc) g = floorEntry fc g.
Proof.
  intros Hf Hne. unfold floorEntry. destruct (Z.ltb_spec g 0); [done|].
  apply list_lookup_insert_ne. lia.
Qed.

Lemma flag_true_entry s f d :
  flag s f d = true ->
  exists e, floorEntry (floorCalls s) f = Some e /\ getFlag e d = true.
Proof.
  unfold flag. destruct (floorEntry (floorCalls s) f) as [e|]; [|done].
  intros H. by exists e.
Qed.

Lemma getFlag_setFlag e d d' b :
  getFlag (setFlag e d b) d' = if decide (d = d') then b else getFlag e d'.
Proof. by destruct d, d'. Qed.

(** ** What one call of [callLift] and [checkPendingCalls] does *)

Lemma set_pendingCalls_same s : set_pendingCalls (pendingCalls s) s = s.
Proof. by destruct s. Qed.

Lemma moveLift_dispatched now s r l f :
  liftStates s !! r = Some l -> status l = idle ->
  dispatched s (moveLift now s r f) r f.
Proof. intros Hr Hi. by exists l, now. Qed.

Lemma moveLift_fields now s i l f :
  liftStates s !! i = Some l ->
  liftStates (moveLift now s i f)
    = <[i := mkLiftState (currentFloor l) moving]> (liftStates s) /\
  floorCalls (moveLift now s i f) = floorCalls s /\
  pendingCalls (moveLift now s i f) = pendingCalls s /\
  doorsOpen (moveLift now s i f) = doorsOpen s /\
  trips (moveLift now s i f)
    = trips s ++
      [mkTrip i f Travelling (now + Z.abs (f - currentFloor l) * 2000)].
Proof. intros Hi. unfold moveLift. by rewrite Hi. Qed.

(** [checkPendingCalls]: nothing to do, the head put back, or the head
    sent to an idle lift. *)
Lemma checkPendingCalls_cases now s :
  (pendingCalls s = [] /\ checkPendingCalls now s = s) \/
  exists c rest, pendingCalls s = c :: rest /\
    ((findNearestIdleLift s (floor c) = -1 /\ checkPendingCalls now s = s) \/
     exists i l,
       findNearestIdleLift s (floor c) = Z.of_nat i /\
       liftStates s !! i = Some l /\ status l = idle /\
       checkPendingCalls now s
         = moveLift now (set_pendingCalls rest s) i (floor c)).
Proof.
  unfold checkPendingCalls. destruct (pendingCalls s) as [|c rest] eqn:Hq.
  - by left.
  - right. exists c, rest. split; [done|].
    change (findNearestIdleLift (set_pendingCalls rest s) (floor c))
      with (findNearestIdleLift s (floor c)).
    destruct (Z.eqb_spec (findNearestIdleLift s (floor c)) (-1)) as [E|E].
    + left. split; [done|]. destruct s. simpl in *. by subst.
    + right. destruct (nearest_idle s (floor c) E) as (r & l & Hr & Hl & Hi).
      exists r, l. rewrite Hr, Nat2Z.id. done.
Qed.

(** [callLift]: a TypeError, a duplicate, a call queued, or a lift sent. *)
Lemma callLift_cases now s f d :
  match floorEntry (floorCalls s) f with
  | None => callLift now s f d = None
  | Some entry =>
      if getFlag entry d then callLift now s f d = Some s
      else
        (findNearestIdleLift s f = -1 /\
         callLift now s f d
           = Some (set_pendingCalls (pendingCalls s ++ [mkCall f d])
                     (lit s f d entry))) \/
        exists i l,
          findNearestIdleLift s f = Z.of_nat i /\
          liftStates s !! i = Some l /\ status l = idle /\
          callLift now s f d = Some (moveLift now (lit s f d entry) i f)
  end.
Proof.
  unfold callLift. destruct (floorEntry (floorCalls s) f) as [e|]; [|done].
  destruct (getFlag e d); [done|]. fold (lit s f d e).
  change (findNearestIdleLift (lit s f d e) f)
    with (findNearestIdleLift s f).
  destruct (Z.eqb_spec (findNearestIdleLift s f) (-1)) as [E|E].
  - by left.
  - right. destruct (nearest_idle s f E) as (r & l & Hr & Hl & Hi).
    exists r, l. rewrite Hr, Nat2Z.id. done.
Qed.

(** The first element of the queue leaves it for a lift, or the queue
    gains one element at its end, or it stays as it is. *)
Lemma step_queue s e :
  pendingCalls (step s e) = pendingCalls s \/
  (exists c, pendingCalls (step s e) = pendingCalls s ++ [c]) \/
  (exists c s1 i,
     pendingCalls s = c :: pendingCalls (step s e) /\
     dispatched s1 (step s e) i (floor c)).
Proof.
  destruct e as [now f d|k]; simpl.
  - pose proof (callLift_cases now s f d) as H.
    destruct (floorEntry (floorCalls s) f) as [e|].
    + destruct (getFlag e d).
      * rewrite H. by left.
      * destruct H as [[_ ->]|(i & l & _ & Hl & _ & ->)].
        -- right. left. by exists (mkCall f d).
        -- left.
           by destruct (moveLift_fields now (lit s f d e) i l f Hl)
             as (_ & _ & -> & _).
    + rewrite H. by left.
  - destruct (trips s !! k) as [t|]; [|by left].
    unfold resume. destruct (phase t); [by left|by left|].
    rewrite finish_release.
    destruct (floorEntry (floorCalls s) (targetFloor t)); [|by left].
    fold (cleared s k t).
    destruct (checkPendingCalls_cases (due t) (cleared s k t))
      as [[_ ->]|(c & rest & Hq & [[_ ->]|(i & l & _ & Hl & Hi & ->)])].
    + by left.
    + by left.
    + right. right. exists c, (set_pendingCalls rest (cleared s k t)), i.
      split; [|by apply (moveLift_dispatched _ _ _ l)].
      destruct (moveLift_fields (due t) (set_pendingCalls rest (cleared s k t))
                  i l (floor c) Hl) as (_ & _ & -> & _).
      simpl in *. done.
Qed.

Lemma run_app s evs1 evs2 : run s (evs1 ++ evs2) = run (run s evs1) evs2.
Proof. apply fold_left_app. Qed.

Lemma run_cons s e evs : run s (e :: evs) = run (step s e) evs.
Proof. reflexivity. Qed.

Lemma reachable_run s evs : reachable s -> reachable (run s evs).
Proof.
  revert s. induction evs as [|e evs IH]; intros s H; [done|].
  rewrite run_cons. apply IH. by constructor.
Qed.

(** What enters the queue and what leaves it, in order. *)
Lemma queue_monitor s e :
  pendingCalls s ++ arrival s e = served s e ++ pendingCalls (step s e).
Proof.
  unfold arrival, served.
  destruct (step_queue s e) as [->|[[c ->]|[c Hc]]].
  - rewrite Nat.sub_diag, drop_all. simpl. by rewrite app_nil_r.
  - rewrite drop_app_length, length_app. simpl.
    replace (length (pendingCalls s) - (length (pendingCalls s) + 1))%nat
      with 0%nat by lia.
    done.
  - destruct Hc as (s1 & i & Hc & _). rewrite Hc at 1 2 3 4. simpl.
    replace (S (length (pendingCalls (step s e)))
             - length (pendingCalls (step s e)))%nat with 1%nat by lia.
    simpl. rewrite drop_ge by (simpl; lia). by rewrite app_nil_r.
Qed.

Lemma queue_history s evs :
  pendingCalls s ++ arrivals s evs
  = servedCalls s evs ++ pendingCalls (run s evs).
Proof.
  revert s. induction evs as [|e evs IH]; intros s.
  - simpl. by rewrite app_nil_r.
  - cbn [arrivals servedCalls].
    rewrite run_cons, app_assoc, queue_monitor, <- !app_assoc. f_equal.
    apply IH.
Qed.

(** A call that finds no idle lift goes to the end of the queue. *)
Lemma pendingCalls_fifo_tail now s f d entry :
  floorEntry (floorCalls s) f = Some entry -> getFlag entry d = false ->
  findNearestIdleLift s f = -1 ->
  exists s', callLift now s f d = Some s' /\
    pendingCalls s' = pendingCalls s ++ [mkCall f d].
Proof.
  intros He Hflag Hnone.
  pose proof (callLift_cases now s f d) as H. rewrite He, Hflag in H.
  destruct H as [[_ ->]|(i & l & Hi & _)]; [|lia].
  eexists. split; [done|]. done.
Qed.

(** ** The pending queue *)

Lemma checkPendingCalls_floorCalls now s :
  floorCalls (checkPendingCalls now s) = floorCalls s.
Proof.
  destruct (checkPendingCalls_cases now s)
    as [[_ ->]|(c & rest & Hq & [[_ ->]|(i & l & _ & Hl & _ & ->)])];
    try done.
  by destruct (moveLift_fields now (set_pendingCalls rest s) i l (floor c) Hl)
    as (_ & -> & _).
Qed.

(** C3. The pending queue is first in, first out: a call that finds no
    idle lift is appended at the end of [pendingCalls]; draining takes the
    first element and sends it to an idle lift; when no lift is idle the
    element taken is put back at the front; no event changes the queue in
    any other way, so along every run the calls leave the queue in the
    order in which they entered it. *)
Theorem pendingCalls_fifo :
  (forall now s f d entry,
     floorEntry (floorCalls s) f = Some entry -> getFlag entry d = false ->
     findNearestIdleLift s f = -1 ->
     exists s', callLift now s f d = Some s' /\
       pendingCalls s' = pendingCalls s ++ [mkCall f d]) /\
  (forall now s c rest,
     pendingCalls s = c :: rest -> findNearestIdleLift s (floor c) <> -1 ->
     pendingCalls (checkPendingCalls now s) = rest /\
     exists i,
       dispatched (set_pendingCalls rest s) (checkPendingCalls now s)
         i (floor c)) /\
  (forall now s c rest,
     pendingCalls s = c :: rest -> findNearestIdleLift s (floor c) = -1 ->
     pendingCalls (checkPendingCalls now s) = c :: rest) /\
  (forall s e,
     pendingCalls (step s e) = pendingCalls s \/
     (exists c, pendingCalls (step s e) = pendingCalls s ++ [c]) \/
     (exists c s1 i,
        pendingCalls s = c :: pendingCalls (step s e) /\
        dispatched s1 (step s e) i (floor c))) /\
  (forall s evs,
     pendingCalls s ++ arrivals s evs
     = servedCalls s evs ++ pendingCalls (run s evs)).
Proof.
  split; [|split; [|split; [|split]]].
  - apply pendingCalls_fifo_tail.
  - intros now s c rest Hq Hsome.
    destruct (checkPendingCalls_cases now s)
      as [[Hq' _]|(c' & rest' & Hq' & [[Hn _]|(i & l & _ & Hl & Hi & ->)])].
    + congruence.
    + rewrite Hq in Hq'. injection Hq' as <- <-. done.
    + rewrite Hq in Hq'. injection Hq' as <- <-.
      split; [|exists i; by apply (moveLift_dispatched _ _ _ l)].
      by destruct (moveLift_fields now (set_pendingCalls rest s) i l
                     (floor c) Hl) as (_ & _ & -> & _).
  - intros now s c rest Hq Hnone.
    destruct (checkPendingCalls_cases now s)
      as [[Hq' _]|(c' & rest' & Hq' & [[_ ->]|(i & l & Hi & _)])].
    + congruence.
    + done.
    + rewrite Hq in Hq'. injection Hq' as <- <-. lia.
  - apply step_queue.
  - apply queue_history.
Qed.

(** One lift, nine floors; the lift is sent to floor 3, and floors 4, 2
    and 7 are called while it is busy.  Each time the lift finishes it
    takes the call at the head of the queue: 4, then 2, then 7. *)
Example fifo_4_2_7 :
  let s0 := createInitialState 9 1 in
  let calls :=
    [Click 0 3 Up; Click 100 4 Up; Click 200 2 Up; Click 300 7 Down] in
  let trip := [Fire 0; Fire 0; Fire 0] in
  timely 0 s0 (calls ++ trip ++ trip ++ trip) = true /\
  floor <$> pendingCalls (run s0 calls) = [4; 2; 7] /\
  targetFloor <$> trips (run s0 (calls ++ trip)) = [4] /\
  targetFloor <$> trips (run s0 (calls ++ trip ++ trip)) = [2] /\
  targetFloor <$> trips (run s0 (calls ++ trip ++ trip ++ trip)) = [7] /\
  pendingCalls (run s0 (calls ++ trip ++ trip ++ trip)) = [].
Proof. vm_compute. repeat split. Qed.

(** ** A lift becoming idle *)

Lemma step_finish s k t :
  trips s !! k = Some t -> phase t = DoorsClosing ->
  inFloors s (targetFloor t) ->
  step s (Fire k) = checkPendingCalls (due t) (cleared s k t).
Proof.
  intros Hk Hp Hf. simpl. rewrite Hk. unfold resume. rewrite Hp.
  rewrite finish_release.
  apply floorEntry_is_Some in Hf as [e He]. by rewrite He.
Qed.

Lemma cleared_flag s k t d :
  inFloors s (targetFloor t) -> flag (cleared s k t) (targetFloor t) d = false.
Proof.
  intros Hf. unfold flag, cleared. simpl.
  rewrite floorEntry_insert_eq by done. by destruct d.
Qed.

(** C4. When the second door timer of a lift fires (the lift has
    completed its door cycle at floor [targetFloor t]), the lift is marked
    idle, the up and the down flag of that floor are both put out, and
    then [checkPendingCalls] runs once: with an empty queue nothing more
    happens; otherwise the selection is run for the first call of the
    queue, and either that call leaves the queue and a lift is sent to its
    floor, or (no idle lift) the call is back at the front and the state
    is the one before the check.  No other element of the queue is
    touched. *)
Theorem lift_idle_reaction (s : Sim) (k : nat) (t : Trip) :
  trips s !! k = Some t -> phase t = DoorsClosing ->
  inFloors s (targetFloor t) ->
  let s0 := cleared s k t in
  let s' := step s (Fire k) in
  liftStates s0 !! liftIndex t
    = (fun l => mkLiftState (currentFloor l) idle)
        <$> liftStates s !! liftIndex t /\
  flag s0 (targetFloor t) Up = false /\
  flag s0 (targetFloor t) Down = false /\
  pendingCalls s0 = pendingCalls s /\
  s' = checkPendingCalls (due t) s0 /\
  flag s' (targetFloor t) Up = false /\
  flag s' (targetFloor t) Down = false /\
  match pendingCalls s with
  | [] => s' = s0
  | c :: rest =>
      if findNearestIdleLift s0 (floor c) =? -1
      then s' = s0
      else pendingCalls s' = rest /\
           exists i, dispatched (set_pendingCalls rest s0) s' i (floor c)
  end.
Proof.
  intros Hk Hp Hf s0 s'.
  assert (s' = checkPendingCalls (due t) s0) as Hs' by by apply step_finish.
  split; [|split; [|split; [|split; [|split; [|split; [|split]]]]]].
  - subst s0. simpl. apply list_lookup_alter_eq.
  - by apply cleared_flag.
  - by apply cleared_flag.
  - done.
  - done.
  - rewrite Hs'. unfold flag. rewrite checkPendingCalls_floorCalls.
    by apply cleared_flag.
  - rewrite Hs'. unfold flag. rewrite checkPendingCalls_floorCalls.
    by apply cleared_flag.
  - rewrite Hs'. change (pendingCalls s) with (pendingCalls s0).
    destruct (checkPendingCalls_cases (due t) s0)
      as [[Hq ->]|(c & rest & Hq & [[Hn ->]|(i & l & Hn & Hl & Hi & ->)])];
      rewrite Hq.
    + done.
    + by rewrite Hn.
    + rewrite Hn. destruct (Z.eqb_spec (Z.of_nat i) (-1)) as [E|_]; [lia|].
      split; [|exists i; by apply (moveLift_dispatched _ _ _ l)].
      by destruct (moveLift_fields (due t) (set_pendingCalls rest s0) i l
                     (floor c) Hl) as (_ & _ & -> & _).
Qed.

(** The concrete states are states of timely runs. *)
Lemma concrete_states_reached :
  idleReactionSim = run (createInitialState 3 2) idleReactionEvents /\
  timely 0 (createInitialState 3 2) idleReactionEvents = true /\
  queueLitSim = run (createInitialState 3 1) queueLitEvents /\
  timely 0 (createInitialState 3 1) queueLitEvents = true /\
  drainSim = run (createInitialState 3 1) drainEvents /\
  timely 0 (createInitialState 3 1) drainEvents = true.
Proof. vm_compute. repeat split. Qed.

(** C4 at [idleReactionSim]: the first lift completes its door cycle at
    floor 2; both flags of floor 2 are out, the call (1, up) has left the
    queue and (2, down) is still in it. *)
Lemma lift_idle_reaction_witness :
  let s := idleReactionSim in
  let t := mkTrip 0 2 DoorsClosing 7000 in
  trips s !! 0%nat = Some t /\ inFloors s (targetFloor t) /\
  pendingCalls s = [mkCall 1 Up; mkCall 2 Down] /\
  flag (step s (Fire 0)) 2 Up = false /\
  flag (step s (Fire 0)) 2 Down = false /\
  pendingCalls (step s (Fire 0)) = [mkCall 2 Down].
Proof.
  intros s t.
  assert (inFloors s (targetFloor t)) as Hf by (unfold inFloors; simpl; lia).
  destruct (lift_idle_reaction s 0 t eq_refl eq_refl Hf)
    as (_ & _ & _ & _ & _ & Hu & Hd & Hq).
  split; [reflexivity|]. split; [exact Hf|]. split; [reflexivity|].
  split; [exact Hu|]. split; [exact Hd|]. exact (proj1 Hq).
Defined.

(** ** A duplicate call *)

(** C5 on the current class: a call whose flag is already lit changes
    nothing; no lift is sent and nothing is queued. *)
Lemma callLift_duplicate now s f d :
  flag s f d = true ->
  callLift now s f d = Some s /\ step s (Click now f d) = s.
Proof.
  intros H. apply flag_true_entry in H as (e & He & Hflag).
  pose proof (callLift_cases now s f d) as Hc. rewrite He, Hflag in Hc.
  split; [done|]. simpl. by rewrite Hc.
Qed.

(** Two lifts; (2, up) is pressed at 0 ms and again at 100 ms: the second
    press changes nothing. *)
Lemma callLift_duplicate_witness :
  let s := step (createInitialState 3 2) (Click 0 2 Up) in
  flag s 2 Up = true /\ step s (Click 100 2 Up) = s.
Proof.
  intros s. split; [reflexivity|].
  exact (proj2 (callLift_duplicate 100 s 2 Up eq_refl)).
Defined.

(** ** No call is lost *)

Lemma step_lifts_length s e :
  length (liftStates (step s e)) = length (liftStates s).
Proof.
  destruct e as [now f d|k]; simpl.
  - pose proof (callLift_cases now s f d) as H.
    destruct (floorEntry (floorCalls s) f) as [e|]; [|by rewrite H].
    destruct (getFlag e d); [by rewrite H|].
    destruct H as [[_ ->]|(i & l & _ & Hl & _ & ->)]; [done|].
    destruct (moveLift_fields now (lit s f d e) i l f Hl) as (-> & _).
    by rewrite length_insert.
  - destruct (trips s !! k) as [t|]; [|done].
    unfold resume. destruct (phase t); simpl.
    + by rewrite length_alter.
    + done.
    + rewrite finish_release.
      destruct (floorEntry (floorCalls s) (targetFloor t)).
      * fold (cleared s k t).
        destruct (checkPendingCalls_cases (due t) (cleared s k t))
          as [[_ ->]|(c & rest & Hq & [[_ ->]|(i & l & _ & Hl & _ & ->)])].
        -- simpl. by rewrite length_alter.
        -- simpl. by rewrite length_alter.
        -- destruct (moveLift_fields (due t)
                       (set_pendingCalls rest (cleared s k t)) i l (floor c) Hl)
             as (-> & _).
           rewrite length_insert. simpl. by rewrite length_alter.
      * simpl. by rewrite length_alter.
Qed.

Lemma run_lifts_length s evs :
  length (liftStates (run s evs)) = length (liftStates s).
Proof.
  revert s. induction evs as [|e evs IH]; intros s; [done|].
  by rewrite run_cons, IH, step_lifts_length.
Qed.

(** While a call is pending, a timer is pending too (given a lift). *)
Lemma pending_has_timer s :
  Inv s -> pendingCalls s <> [] -> liftStates s <> [] -> trips s <> [].
Proof.
  intros [HI HB] Hq Hl. destruct (liftStates s) as [|l ls] eqn:El; [done|].
  assert (liftStates s !! 0%nat = Some l) as H0 by by rewrite El.
  pose proof (HB Hq _ _ H0) as Hm. apply (inv_moving s HI _ _ H0) in Hm.
  intros Ht. rewrite Ht in Hm. by apply elem_of_nil in Hm.
Qed.

(** The lift that finishes takes the call at the head of the queue. *)
Lemma pending_head_served s k t c rest :
  Inv s -> trips s !! k = Some t -> phase t = DoorsClosing ->
  pendingCalls s = c :: rest ->
  pendingCalls (step s (Fire k)) = rest /\
  dispatched (set_pendingCalls rest (cleared s k t)) (step s (Fire k))
    (liftIndex t) (floor c).
Proof.
  intros HI Hk Hp Hq. pose proof HI as [HI0 HB].
  simpl. rewrite Hk. unfold resume. rewrite Hp.
  rewrite (finish_serves_head s k t c rest) by done.
  destruct (lookup_lt_is_Some_2 (liftStates s) (liftIndex t)) as [l0 Hl0].
  { by eapply trip_lift_lt. }
  assert (liftStates (set_pendingCalls rest (cleared s k t)) !! liftIndex t
          = Some (mkLiftState (currentFloor l0) idle)) as Hidle.
  { simpl. by rewrite list_lookup_alter_eq, Hl0. }
  split.
  - by destruct (moveLift_fields (due t) _ _ _ (floor c) Hidle)
      as (_ & _ & -> & _).
  - by eapply moveLift_dispatched.
Qed.

Lemma step_arrive s k t :
  trips s !! k = Some t -> phase t = Travelling ->
  step s (Fire k) = arrive s k t.
Proof. intros Hk Hp. simpl. rewrite Hk. unfold resume. by rewrite Hp. Qed.

Lemma step_closeDoors s k t :
  trips s !! k = Some t -> phase t = DoorsOpen ->
  step s (Fire k) = closeDoors s k t.
Proof. intros Hk Hp. simpl. rewrite Hk. unfold resume. by rewrite Hp. Qed.

Lemma fire_travelling s k t :
  trips s !! k = Some t -> phase t = Travelling ->
  trips (step s (Fire k)) !! k
    = Some (mkTrip (liftIndex t) (targetFloor t) DoorsOpen (due t + 2500)) /\
  pendingCalls (step s (Fire k)) = pendingCalls s.
Proof.
  intros Hk Hp. rewrite (step_arrive s k t) by done. split; [|done].
  simpl. apply list_lookup_insert_eq. by eapply lookup_lt_Some.
Qed.

Lemma fire_doorsOpen s k t :
  trips s !! k = Some t -> phase t = DoorsOpen ->
  trips (step s (Fire k)) !! k
    = Some (mkTrip (liftIndex t) (targetFloor t) DoorsClosing
              (due t + 2500)) /\
  pendingCalls (step s (Fire k)) = pendingCalls s.
Proof.
  intros Hk Hp. rewrite (step_closeDoors s k t) by done. split; [|done].
  simpl. apply list_lookup_insert_eq. by eapply lookup_lt_Some.
Qed.

(** An activation reaches its last timer after at most two firings, and
    the queue is not touched on the way. *)
Lemma trip_reaches_last_timer s k t :
  trips s !! k = Some t ->
  exists evs t',
    Forall isTimer evs /\
    trips (run s evs) !! k = Some t' /\ phase t' = DoorsClosing /\
    pendingCalls (run s evs) = pendingCalls s.
Proof.
  intros Hk. destruct (phase t) eqn:Hp.
  - destruct (fire_travelling s k t Hk Hp) as [Hk1 Hq1].
    destruct (fire_doorsOpen _ k _ Hk1 eq_refl) as [Hk2 Hq2].
    exists [Fire k; Fire k]. eexists. split; [by repeat constructor|].
    change (run s [Fire k; Fire k]) with (step (step s (Fire k)) (Fire k)).
    split; [exact Hk2|]. split; [done|]. by rewrite Hq2, Hq1.
  - destruct (fire_doorsOpen s k t Hk Hp) as [Hk1 Hq1].
    exists [Fire k]. eexists. split; [by repeat constructor|].
    change (run s [Fire k]) with (step s (Fire k)).
    split; [exact Hk1|]. split; [done|]. exact Hq1.
  - exists [], t. split; [constructor|]. done.
Qed.

(** From a reachable state with a lift and a call at the head of the
    queue, timers alone bring that call to a lift. *)
Lemma head_served_eventually s c rest :
  reachable s -> liftStates s <> [] -> pendingCalls s = c :: rest ->
  exists evs s1 i,
    Forall isTimer evs /\ pendingCalls (run s evs) = rest /\
    dispatched s1 (run s evs) i (floor c).
Proof.
  intros Hr Hl Hq.
  assert (trips s <> []) as Ht.
  { apply pending_has_timer; [by apply reachable_Inv|by rewrite Hq|done]. }
  destruct (trips s) as [|t ts] eqn:Et; [done|].
  destruct (trip_reaches_last_timer s 0 t) as (evs & t' & Hev & Hk & Hp & Hq').
  { by rewrite Et. }
  destruct (pending_head_served (run s evs) 0 t' c rest) as [Hrest Hd].
  - apply reachable_Inv. by apply reachable_run.
  - done.
  - done.
  - by rewrite Hq'.
  - exists (evs ++ [Fire 0]). eexists _, _. rewrite run_app.
    split; [|split; [exact Hrest|exact Hd]].
    apply Forall_app. split; [done|]. by repeat constructor.
Qed.

(** The same for a call anywhere in the queue. *)
Lemma pending_served_eventually s pre c post :
  reachable s -> liftStates s <> [] -> pendingCalls s = pre ++ c :: post ->
  exists evs s1 i,
    Forall isTimer evs /\ pendingCalls (run s evs) = post /\
    dispatched s1 (run s evs) i (floor c).
Proof.
  revert s. induction pre as [|c0 pre IH]; intros s Hr Hl Hq.
  - by apply head_served_eventually.
  - destruct (head_served_eventually s c0 (pre ++ c :: post) Hr Hl Hq)
      as (evs0 & _ & _ & Hev0 & Hq0 & _).
    destruct (IH (run s evs0)) as (evs & s1 & i & Hev & Hq1 & Hd).
    + by apply reachable_run.
    + intros E. apply Hl. apply length_zero_iff_nil.
      rewrite <- (run_lifts_length s evs0), E. done.
    + done.
    + exists (evs0 ++ evs), s1, i. rewrite run_app.
      split; [by apply Forall_app|]. done.
Qed.

(** C1 on the current class.  A call made while no lift is idle is
    appended to [pendingCalls]; whatever happens next, a queued call is
    still queued unless it was the first of the queue and a lift has just
    been sent to its floor; in a reachable state the lift that completes
    its door cycle takes the first call of the queue; and the timers that
    are pending are enough to bring every queued call to a lift. *)
Lemma pending_call_never_dropped :
  (forall now s f d entry,
     floorEntry (floorCalls s) f = Some entry -> getFlag entry d = false ->
     findNearestIdleLift s f = -1 ->
     exists s', callLift now s f d = Some s' /\
       pendingCalls s' = pendingCalls s ++ [mkCall f d]) /\
  (forall s e c, c ∈ pendingCalls s ->
     c ∈ pendingCalls (step s e) \/
     exists s1 i, pendingCalls s = c :: pendingCalls (step s e) /\
       dispatched s1 (step s e) i (floor c)) /\
  (forall s k t c rest,
     reachable s -> trips s !! k = Some t -> phase t = DoorsClosing ->
     pendingCalls s = c :: rest ->
     pendingCalls (step s (Fire k)) = rest /\
     dispatched (set_pendingCalls rest (cleared s k t)) (step s (Fire k))
       (liftIndex t) (floor c)) /\
  (forall s pre c post,
     reachable s -> liftStates s <> [] ->
     pendingCalls s = pre ++ c :: post ->
     exists evs s1 i,
       Forall isTimer evs /\ pendingCalls (run s evs) = post /\
       dispatched s1 (run s evs) i (floor c)).
Proof.
  split; [|split; [|split]].
  - apply pendingCalls_fifo_tail.
  - intros s e c Hc.
    destruct (step_queue s e) as [->|[[c' ->]|(c' & s1 & i & Hq & Hd)]].
    + by left.
    + left. apply elem_of_app. by left.
    + rewrite Hq in Hc. apply elem_of_cons in Hc as [->|Hc].
      * right. by exists s1, i.
      * by left.
  - intros s k t c rest Hr. apply pending_head_served.
    by apply reachable_Inv.
  - apply pending_served_eventually.
Qed.

(** ** One destination per lift *)

(** C7 on the current class.  [callLift] and [checkPendingCalls] hand
    [moveLift] only a lift that is idle at that moment: [callLift] either
    starts no activation, or calls [moveLift] for the lift that
    [findNearestIdleLift] returned, whose status is 'idle' in the state
    in which [moveLift] is entered (the state with the flag lit);
    [checkPendingCalls] either leaves the state as it is, or calls
    [moveLift] for the first call of the queue and a lift that is idle in
    the state in which [moveLift] is entered (the state without that
    call).  And in every reachable state no lift has two activations of
    [moveLift] in flight: a lift is idle exactly when it has none. *)
Lemma one_destination_in_flight :
  (forall now s f d s', callLift now s f d = Some s' ->
     trips s' = trips s \/
     exists entry i l,
       floorEntry (floorCalls s) f = Some entry /\
       findNearestIdleLift (lit s f d entry) f = Z.of_nat i /\
       liftStates (lit s f d entry) !! i = Some l /\ status l = idle /\
       s' = moveLift now (lit s f d entry) i f /\
       trips s' = trips s ++
         [mkTrip i f Travelling (now + Z.abs (f - currentFloor l) * 2000)]) /\
  (forall now s,
     checkPendingCalls now s = s \/
     exists c rest i l,
       pendingCalls s = c :: rest /\
       findNearestIdleLift (set_pendingCalls rest s) (floor c) = Z.of_nat i /\
       liftStates (set_pendingCalls rest s) !! i = Some l /\
       status l = idle /\
       checkPendingCalls now s
       = moveLift now (set_pendingCalls rest s) i (floor c) /\
       trips (checkPendingCalls now s) = trips s ++
         [mkTrip i (floor c) Travelling
            (now + Z.abs (floor c - currentFloor l) * 2000)]) /\
  (forall s, reachable s ->
     NoDup (liftIndex <$> trips s) /\
     forall i l, liftStates s !! i = Some l ->
       (status l = idle <-> i ∉ liftIndex <$> trips s)).
Proof.
  split; [|split].
  - intros now s f d s' H. pose proof (callLift_cases now s f d) as Hc.
    destruct (floorEntry (floorCalls s) f) as [e|]; [|congruence].
    destruct (getFlag e d).
    + left. congruence.
    + destruct Hc as [[_ Hc]|(i & l & Hn & Hl & Hi & Hc)];
        rewrite Hc in H; injection H as <-.
      * by left.
      * right. exists e, i, l. split; [done|]. split; [done|].
        split; [done|]. split; [done|]. split; [done|].
        by destruct (moveLift_fields now (lit s f d e) i l f Hl)
          as (_ & _ & _ & _ & ->).
  - intros now s.
    destruct (checkPendingCalls_cases now s)
      as [[_ ->]|(c & rest & Hq & [[_ ->]|(i & l & Hn & Hl & Hi & ->)])].
    + by left.
    + by left.
    + right. exists c, rest, i, l. split; [done|]. split; [done|].
      split; [done|]. split; [done|]. split; [done|].
      by destruct (moveLift_fields now (set_pendingCalls rest s) i l
                     (floor c) Hl) as (_ & _ & _ & _ & ->).
  - intros s Hr. apply reachable_Inv in Hr as [HI _].
    split; [apply (inv_nodup s HI)|].
    intros i l Hl. rewrite <- (inv_moving s HI i l Hl).
    destruct (status l); split; congruence.
Qed.

(** ** The earlier copies *)

(** C1 on the first copy of the class: one lift, sent to floor 2; floor 3
    is called at 100 ms, while the lift is moving.  The flag of (3, down)
    is lit, no lift is sent, and once the trip to floor 2 is over no timer
    is left: the lift stays idle at floor 2 and the call is never
    answered. *)
Lemma legacy_call_dropped :
  let s0 := Legacy.createInitialState 3 1 in
  let evs := [Click 0 2 Up; Click 100 3 Down; Fire 0; Fire 0; Fire 0] in
  let s := Legacy.run s0 evs in
  Legacy.timely 0 s0 evs = true /\
  Legacy.findNearestIdleLift (Legacy.run s0 [Click 0 2 Up]) 3 = -1 /\
  Legacy.liftStates s = [mkLiftState 2 idle] /\
  Legacy.trips s = [] /\
  Legacy.flag s 3 Down = true.
Proof. vm_compute. repeat split. Qed.

(** C7 on the first copy of the class: one lift, sent to floor 2, arrives
    at 2000 ms and is marked idle while its doors are still to cycle
    (timers at 4500 and 7000 ms); a call for floor 3 at 3000 ms sends it
    off again.  The lift now has two activations in flight. *)
Lemma legacy_two_destinations :
  let s0 := Legacy.createInitialState 3 1 in
  let evs := [Click 0 2 Up; Fire 0; Click 3000 3 Down] in
  let s := Legacy.run s0 evs in
  Legacy.timely 0 s0 evs = true /\
  Legacy.trips s
    = [mkTrip 0 2 DoorsOpen 4500; mkTrip 0 3 Travelling 5000] /\
  Legacy.liftStates s = [mkLiftState 2 moving] /\
  Legacy.doorsOpen s = [true].
Proof. vm_compute. repeat split. Qed.

(** C5 on the earlier copy of the class in main.js: with two lifts, the
    button (2, up) is pressed at 0 ms and again at 100 ms, its flag lit.
    The second press sends the second lift to floor 2 as well. *)
Lemma unguarded_duplicate_sends_lift :
  let s0 := createInitialState 3 2 in
  let s1 := Unguarded.step s0 (Click 0 2 Up) in
  let s2 := Unguarded.step s1 (Click 100 2 Up) in
  Unguarded.timely 0 s0 [Click 0 2 Up; Click 100 2 Up] = true /\
  flag s1 2 Up = true /\
  trips s1 = [mkTrip 0 2 Travelling 2000] /\
  trips s2 = [mkTrip 0 2 Travelling 2000; mkTrip 1 2 Travelling 2100] /\
  liftStates s2 = [mkLiftState 1 moving; mkLiftState 1 moving].
Proof. vm_compute. repeat split. Qed.

(** The same with one lift: the second press puts a second entry for
    (2, up) in the queue. *)
Lemma unguarded_duplicate_queued :
  let s1 := Unguarded.step (createInitialState 3 1) (Click 0 3 Up) in
  let s2 := Unguarded.step s1 (Click 100 2 Up) in
  let s3 := Unguarded.step s2 (Click 200 2 Up) in
  flag s2 2 Up = true /\
  pendingCalls s2 = [mkCall 2 Up] /\
  pendingCalls s3 = [mkCall 2 Up; mkCall 2 Up].
Proof. vm_compute. repeat split. Qed.

(** ** One trip, from [moveLift] to the last door timer *)

Lemma alter_insert_eq {A} (g : A -> A) (l : list A) (i : nat) (x : A) :
  alter g i (<[i := x]> l) = <[i := g x]> l.
Proof.
  rewrite (list_insert_alter l i x), list_alter_alter_eq.
  by rewrite (list_insert_alter l i (g x)).
Qed.

Lemma insert_last {A} (l : list A) (x y : A) :
  <[length l := y]> (l ++ [x]) = l ++ [y].
Proof. by rewrite insert_app_r_alt, Nat.sub_diag. Qed.

Lemma lookup_last {A} (l : list A) (x : A) : (l ++ [x]) !! length l = Some x.
Proof. by rewrite lookup_app_r, Nat.sub_diag. Qed.

Lemma delete_last {A} (l : list A) (x : A) : delete (length l) (l ++ [x]) = l.
Proof. by rewrite delete_middle, app_nil_r. Qed.

(** The states an activation goes through.  [d] is the time of arrival;
    the doors are open from [d] to [d + 2500] and closing until
    [d + 5000], when the lift is marked idle, the flags of the floor are
    put out and the pending calls are checked. *)
Lemma trip_cycle now s i l f :
  liftStates s !! i = Some l ->
  let n := length (trips s) in
  let d := now + Z.abs (f - currentFloor l) * 2000 in
  let s1 := moveLift now s i f in
  let s2 := step s1 (Fire n) in
  let s3 := step s2 (Fire n) in
  s1 = mkSim (<[i := mkLiftState (currentFloor l) moving]> (liftStates s))
         (floorCalls s) (pendingCalls s) (doorsOpen s)
         (trips s ++ [mkTrip i f Travelling d]) /\
  s2 = mkSim (<[i := mkLiftState f moving]> (liftStates s))
         (floorCalls s) (pendingCalls s) (<[i := true]> (doorsOpen s))
         (trips s ++ [mkTrip i f DoorsOpen (d + 2500)]) /\
  s3 = mkSim (<[i := mkLiftState f moving]> (liftStates s))
         (floorCalls s) (pendingCalls s) (<[i := false]> (doorsOpen s))
         (trips s ++ [mkTrip i f DoorsClosing (d + 5000)]) /\
  (inFloors s f ->
   step s3 (Fire n)
   = checkPendingCalls (d + 5000)
       (mkSim (<[i := mkLiftState f idle]> (liftStates s))
          (<[Z.to_nat f := mkFloorCall false false]> (floorCalls s))
          (pendingCalls s) (<[i := false]> (doorsOpen s)) (trips s))).
Proof.
  intros Hl n d s1 s2 s3.
  assert (s1 = mkSim (<[i := mkLiftState (currentFloor l) moving]>
                        (liftStates s))
                 (floorCalls s) (pendingCalls s) (doorsOpen s)
                 (trips s ++ [mkTrip i f Travelling d])) as E1.
  { subst s1. unfold moveLift. by rewrite Hl. }
  assert (s2 = mkSim (<[i := mkLiftState f moving]> (liftStates s))
                 (floorCalls s) (pendingCalls s) (<[i := true]> (doorsOpen s))
                 (trips s ++ [mkTrip i f DoorsOpen (d + 2500)])) as E2.
  { subst s2. rewrite E1.
    rewrite (step_arrive _ n (mkTrip i f Travelling d));
      [|apply lookup_last|done].
    unfold arrive. simpl. subst n.
    by rewrite insert_last, alter_insert_eq. }
  assert (s3 = mkSim (<[i := mkLiftState f moving]> (liftStates s))
                 (floorCalls s) (pendingCalls s) (<[i := false]> (doorsOpen s))
                 (trips s ++ [mkTrip i f DoorsClosing (d + 5000)])) as E3.
  { subst s3. rewrite E2.
    rewrite (step_closeDoors _ n (mkTrip i f DoorsOpen (d + 2500)));
      [|apply lookup_last|done].
    unfold closeDoors. simpl. subst n.
    rewrite insert_last, list_insert_insert_eq.
    by replace (d + 2500 + 2500) with (d + 5000) by lia. }
  split; [done|]. split; [done|]. split; [done|].
  intros Hf. rewrite E3.
  rewrite (step_finish _ n (mkTrip i f DoorsClosing (d + 5000)));
    [|apply lookup_last|done|done].
  unfold cleared, release. simpl. subst n.
  by rewrite delete_last, alter_insert_eq.
Qed.

(** ** Queued calls and their flags *)

Lemma flag_ext s1 s2 f d :
  floorCalls s1 = floorCalls s2 -> flag s1 f d = flag s2 f d.
Proof. unfold flag. by intros ->. Qed.

Lemma lit_flag_eq s f d e :
  floorEntry (floorCalls s) f = Some e -> flag (lit s f d e) f d = true.
Proof.
  intros He. unfold flag, lit. simpl.
  rewrite floorEntry_insert_eq by by eapply floorEntry_Some_range.
  rewrite getFlag_setFlag. by case_decide.
Qed.

Lemma lit_flag_mono s f d e g d' :
  floorEntry (floorCalls s) f = Some e ->
  flag s g d' = true -> flag (lit s f d e) g d' = true.
Proof.
  intros He Hg. destruct (decide (f = g)) as [<-|Hne].
  - unfold flag in *. rewrite He in Hg. unfold lit. simpl.
    rewrite floorEntry_insert_eq by by eapply floorEntry_Some_range.
    rewrite getFlag_setFlag. by case_decide.
  - unfold flag, lit in *. simpl.
    rewrite floorEntry_insert_ne; [done| |done].
    apply floorEntry_Some_range in He. lia.
Qed.

(** A timer other than the last door timer leaves queue and flags alone. *)
Lemma resume_early_frame s k t :
  phase t <> DoorsClosing ->
  pendingCalls (resume s k t) = pendingCalls s /\
  floorCalls (resume s k t) = floorCalls s.
Proof. unfold resume. by destruct (phase t). Qed.

(** A click leaves the queue as it is or adds the call at its end, and
    puts no flag out. *)
Lemma click_queue_flags now s f d :
  let s' := step s (Click now f d) in
  (pendingCalls s' = pendingCalls s \/
   (pendingCalls s' = pendingCalls s ++ [mkCall f d] /\
    flag s' f d = true)) /\
  forall g d', flag s g d' = true -> flag s' g d' = true.
Proof.
  simpl. pose proof (callLift_cases now s f d) as H.
  destruct (floorEntry (floorCalls s) f) as [e|] eqn:He;
    [|rewrite H; split; [by left|done]].
  destruct (getFlag e d) eqn:Hg; [rewrite H; split; [by left|done]|].
  destruct H as [[_ ->]|(i & l & _ & Hl & _ & ->)].
  - split.
    + right. split; [done|]. by apply (lit_flag_eq s f d e).
    + intros g d' Hflag. by apply (lit_flag_mono s f d e).
  - destruct (moveLift_fields now (lit s f d e) i l f Hl)
      as (_ & Hfc & Hq & _).
    split; [left; by rewrite Hq|].
    intros g d' Hflag. rewrite (flag_ext _ (lit s f d e)) by done.
    by apply (lit_flag_mono s f d e).
Qed.

(** The last door timer of an activation: both flags of its floor are
    put out, no other flag changes, and at most the first call leaves the
    queue. *)
Lemma finish_queue_flags s k t :
  trips s !! k = Some t -> phase t = DoorsClosing ->
  let s' := step s (Fire k) in
  (forall d, flag s' (targetFloor t) d = false) /\
  (forall g d, g <> targetFloor t -> flag s' g d = flag s g d) /\
  (pendingCalls s' = pendingCalls s \/
   exists c, pendingCalls s = c :: pendingCalls s').
Proof.
  intros Hk Hp. simpl. rewrite Hk. unfold resume. rewrite Hp.
  rewrite finish_release.
  destruct (floorEntry (floorCalls s) (targetFloor t)) as [e|] eqn:He.
  - fold (cleared s k t).
    pose proof (floorEntry_Some_range _ _ _ He) as Hr.
    split; [|split].
    + intros d.
      rewrite (flag_ext _ (cleared s k t))
        by apply checkPendingCalls_floorCalls.
      by apply cleared_flag.
    + intros g d Hne.
      rewrite (flag_ext _ (cleared s k t))
        by apply checkPendingCalls_floorCalls.
      unfold flag, cleared. simpl.
      rewrite floorEntry_insert_ne; [done|lia|done].
    + destruct (checkPendingCalls_cases (due t) (cleared s k t))
        as [[_ ->]|(c & rest & Hq & [[_ ->]|(i & l & _ & Hl & _ & ->)])].
      * by left.
      * by left.
      * right. exists c.
        destruct (moveLift_fields (due t)
                    (set_pendingCalls rest (cleared s k t)) i l (floor c)
                    Hl) as (_ & _ & -> & _).
        simpl in *. done.
  - split; [|split].
    + intros d. unfold flag. simpl. by rewrite He.
    + done.
    + by left.
Qed.

(** A timer leaves the queue as it is or takes its first call. *)
Lemma fire_queue s k :
  pendingCalls (step s (Fire k)) = pendingCalls s \/
  exists c, pendingCalls s = c :: pendingCalls (step s (Fire k)).
Proof.
  destruct (trips s !! k) as [t|] eqn:Hk; [|left; simpl; by rewrite Hk].
  destruct (decide (phase t = DoorsClosing)) as [Hp|Hp].
  - by destruct (finish_queue_flags s k t Hk Hp) as (_ & _ & H).
  - left. simpl. rewrite Hk. by destruct (resume_early_frame s k t Hp).
Qed.

(** C6, as the code has it, for every state [s] and every event [e].
    (1) A call that enters the queue has its flag lit.  (2) A click, a
    travel timer and the timer of the open doors take nothing out of the
    queue and keep every lit flag lit; so if every queued call has its
    flag lit before, every queued call has its flag lit after.  (3) The
    last door timer of an activation (the lift has completed its door
    cycle at floor [targetFloor t]) puts out both flags of that floor,
    changes no flag of another floor and takes at most the first call out
    of the queue; so a call for that floor that is still in the queue is
    left with its flag out, and a queued call for another floor keeps its
    flag as it was. *)
Theorem queue_flags_until_arrival (s : Sim) (e : Event) :
  let s' := step s e in
  (forall c, pendingCalls s' = pendingCalls s ++ [c] ->
     flag s' (floor c) (direction c) = true) /\
  ((forall k t, e = Fire k -> trips s !! k = Some t ->
      phase t <> DoorsClosing) ->
   pendingCalls s `prefix_of` pendingCalls s' /\
   (forall g d, flag s g d = true -> flag s' g d = true) /\
   (queueLit s -> queueLit s')) /\
  (forall k t, e = Fire k -> trips s !! k = Some t ->
     phase t = DoorsClosing ->
     (forall d, flag s' (targetFloor t) d = false) /\
     (forall g d, g <> targetFloor t -> flag s' g d = flag s g d) /\
     (pendingCalls s' = pendingCalls s \/
      exists c, pendingCalls s = c :: pendingCalls s') /\
     (forall c, c ∈ pendingCalls s' -> floor c = targetFloor t ->
        flag s' (floor c) (direction c) = false) /\
     (forall c, c ∈ pendingCalls s' -> floor c <> targetFloor t ->
        flag s' (floor c) (direction c)
        = flag s (floor c) (direction c))).
Proof.
  intros s'. split; [|split].
  - intros c Hq. destruct e as [now f d|k].
    + destruct (click_queue_flags now s f d) as [[H|[H Hflag]] _];
        fold s' in H.
      * rewrite H in Hq. apply (f_equal length) in Hq.
        rewrite length_app in Hq. simpl in Hq. lia.
      * rewrite H in Hq. apply app_inv_head in Hq. injection Hq as <-.
        exact Hflag.
    + exfalso. destruct (fire_queue s k) as [H|[c0 H]]; fold s' in H.
      * rewrite H in Hq. apply (f_equal length) in Hq.
        rewrite length_app in Hq. simpl in Hq. lia.
      * rewrite H in Hq. apply (f_equal length) in Hq.
        rewrite length_app in Hq. simpl in Hq. lia.
  - intros Hearly.
    assert (pendingCalls s `prefix_of` pendingCalls s' /\
            (forall c, c ∈ pendingCalls s' ->
               c ∈ pendingCalls s \/
               flag s' (floor c) (direction c) = true) /\
            forall g d, flag s g d = true -> flag s' g d = true)
      as (Hpre & Hnew & Hmono).
    { destruct e as [now f d|k].
      - destruct (click_queue_flags now s f d) as [[H|[H Hflag]] Hmono];
          fold s' in H, Hmono; rewrite H.
        + split; [done|]. split; [|done]. intros c Hc. by left.
        + split; [by apply prefix_app_r|]. split; [|done].
          intros c Hc. apply elem_of_app in Hc as [Hc|Hc]; [by left|].
          apply list_elem_of_singleton in Hc as ->. by right.
      - unfold s'. simpl.
        destruct (trips s !! k) as [t|] eqn:Hk;
          [|split; [done|split; [by left|done]]].
        destruct (resume_early_frame s k t (Hearly k t eq_refl Hk))
          as [Hq Hfc].
        rewrite Hq. split; [done|]. split; [by left|].
        intros g d. by rewrite (flag_ext (resume s k t) s g d Hfc). }
    split; [done|]. split; [done|].
    intros HL c Hc. destruct (Hnew c Hc) as [Hold|Hlit]; [|done].
    by apply Hmono, HL.
  - intros k t -> Hk Hp.
    destruct (finish_queue_flags s k t Hk Hp) as (Hout & Hsame & Hq).
    fold s' in Hout, Hsame, Hq.
    split; [done|]. split; [done|]. split; [done|]. split.
    + intros c _ ->. apply Hout.
    + intros c _ Hne. by apply Hsame.
Qed.

(** C6 at [queueLitSim], where the lift is on its way to floor 2 and
    (3, down) waits: the call (2, down) enters the queue with its flag
    lit, and every queued call has its flag lit afterwards.  And at [run
    queueLitSim [Click 200 2 Down; Fire 0; Fire 0]], where the lift is at
    its last door timer at floor 2: that timer takes (3, down) out of the
    queue and leaves (2, down) in it with its flag out. *)
Lemma queue_flags_until_arrival_witness :
  flag (step queueLitSim (Click 200 2 Down)) 2 Down = true /\
  queueLit (step queueLitSim (Click 200 2 Down)) /\
  pendingCalls (step lastDoorSim (Fire 0)) = [mkCall 2 Down] /\
  flag (step lastDoorSim (Fire 0)) 2 Down = false.
Proof.
  destruct (queue_flags_until_arrival queueLitSim (Click 200 2 Down))
    as (Henter & Hearly & _).
  destruct (queue_flags_until_arrival lastDoorSim (Fire 0))
    as (_ & _ & Hlast).
  split; [|split; [|split]].
  - apply (Henter (mkCall 2 Down)). reflexivity.
  - destruct Hearly as (_ & _ & HL); [intros k t H; discriminate H|].
    apply HL. intros c Hc.
    change (pendingCalls queueLitSim) with [mkCall 3 Down] in Hc.
    apply list_elem_of_singleton in Hc. subst c. reflexivity.
  - reflexivity.
  - destruct (Hlast 0%nat (mkTrip 0 2 DoorsClosing 7000) eq_refl eq_refl
                eq_refl) as (_ & _ & _ & Hout & _).
    apply (Hout (mkCall 2 Down)); [|reflexivity].
    apply (list_elem_of_lookup_2 _ 0%nat). reflexivity.
Defined.

(** C6 as stated fails: one lift, three floors.  The lift is sent to
    floor 2; (3, down) and (2, down) are called while it is on its way and
    wait in the queue.  When the lift has completed its door cycle at
    floor 2 both flags of floor 2 are put out and the lift leaves for
    floor 3; the call (2, down) is still in the queue, its flag out. *)
Lemma queued_call_flag_out :
  let s0 := createInitialState 3 1 in
  let evs :=
    [Click 0 2 Up; Click 100 3 Down; Click 200 2 Down;
     Fire 0; Fire 0; Fire 0] in
  timely 0 s0 evs = true /\
  reachable (run s0 evs) /\
  pendingCalls (run s0 evs) = [mkCall 2 Down] /\
  flag (run s0 evs) 2 Down = false /\
  ~ queueLit (run s0 evs).
Proof.
  intros s0 evs.
  split; [by vm_compute|].
  split; [apply reachable_run, reachable_init|].
  split; [by vm_compute|]. split; [by vm_compute|].
  intros H. specialize (H (mkCall 2 Down)).
  assert (mkCall 2 Down ∈ pendingCalls (run s0 evs)) as Hin.
  { vm_compute. apply list_elem_of_singleton. reflexivity. }
  apply H in Hin. vm_compute in Hin. discriminate Hin.
Qed.

(** ** A call at the floor where an idle lift rests *)

(** The lift chosen is at least as near as any idle lift. *)
Lemma nearest_least s f j lj :
  liftStates s !! j = Some lj -> status lj = idle ->
  exists r l,
    findNearestIdleLift s f = Z.of_nat r /\ liftStates s !! r = Some l /\
    status l = idle /\ dist f l <= dist f lj.
Proof.
  intros Hj Hidle. unfold findNearestIdleLift.
  pose proof (scan_result s f) as H. unfold scanned in H.
  destruct (snd (scanLifts f 0 (liftStates s) (-1, None))) as [d|].
  - destruct H as (r & l & Hr & Hl & Hi & -> & Hmin).
    exists r, l. split; [done|]. split; [done|]. split; [done|].
    by apply (Hmin j lj).
  - destruct H as [_ Hall]. rewrite (Hall j lj Hj) in Hidle. done.
Qed.

Lemma checkPendingCalls_empty now s :
  pendingCalls s = [] -> checkPendingCalls now s = s.
Proof. intros H. unfold checkPendingCalls. by rewrite H. Qed.

(** C8, as the code has it.  In a reachable state, a call (f, d) whose
    flag is out, made while some lift rests idle at floor [f], goes to a
    lift [i] resting idle at [f].  That lift is marked 'moving' and waits
    for a travel timer of 0 ms; when the timer fires the doors open, 2500
    ms later they close, and after another 2500 ms the lift is idle again
    at floor [f], both flags of the floor out. *)
Theorem same_floor_call (now : Z) (s : Sim) (f : Z) (d : Direction) :
  reachable s -> flag s f d = false -> inFloors s f ->
  (exists j lj,
     liftStates s !! j = Some lj /\ status lj = idle /\ currentFloor lj = f) ->
  exists i l,
    liftStates s !! i = Some l /\ status l = idle /\ currentFloor l = f /\
    let n := length (trips s) in
    let s1 := step s (Click now f d) in
    let s2 := step s1 (Fire n) in
    let s3 := step s2 (Fire n) in
    let s4 := step s3 (Fire n) in
    (liftStates s1 !! i = Some (mkLiftState f moving) /\
     trips s1 = trips s ++ [mkTrip i f Travelling now] /\
     doorsOpen s1 = doorsOpen s) /\
    (liftStates s2 !! i = Some (mkLiftState f moving) /\
     trips s2 = trips s ++ [mkTrip i f DoorsOpen (now + 2500)] /\
     doorsOpen s2 = <[i := true]> (doorsOpen s)) /\
    (liftStates s3 !! i = Some (mkLiftState f moving) /\
     trips s3 = trips s ++ [mkTrip i f DoorsClosing (now + 5000)] /\
     doorsOpen s3 = <[i := false]> (doorsOpen s)) /\
    (liftStates s4 = liftStates s /\ trips s4 = trips s /\
     pendingCalls s4 = [] /\
     flag s4 f Up = false /\ flag s4 f Down = false).
Proof.
  intros Hr Hflag Hf (j & lj & Hj & Hjidle & Hjf).
  destruct (nearest_least s f j lj Hj Hjidle) as (i & l & Hn & Hl & Hi & Hd).
  assert (currentFloor l = f) as Hcf.
  { unfold dist in Hd. rewrite Hjf in Hd. lia. }
  exists i, l. split; [done|]. split; [done|]. split; [done|].
  pose proof (lookup_lt_Some _ _ _ Hl) as Hlt.
  assert (pendingCalls s = []) as Hq.
  { apply reachable_Inv in Hr as [_ HB].
    destruct (pendingCalls s) eqn:E; [done|].
    assert (pendingCalls s <> []) as Hne by by rewrite E.
    rewrite (HB Hne i l Hl) in Hi. done. }
  destruct (proj2 (floorEntry_is_Some (floorCalls s) f) Hf) as [e He].
  assert (getFlag e d = false) as Hg.
  { unfold flag in Hflag. by rewrite He in Hflag. }
  assert (step s (Click now f d) = moveLift now (lit s f d e) i f) as E1.
  { simpl. pose proof (callLift_cases now s f d) as H.
    rewrite He, Hg in H.
    destruct H as [[H _]|(i' & l' & Hn' & _ & _ & ->)]; [lia|].
    assert (i' = i) as -> by lia. done. }
  intros n s1 s2 s3 s4. subst s1 s2 s3 s4. rewrite E1.
  assert (liftStates (lit s f d e) !! i = Some l) as Hl' by done.
  assert (inFloors (lit s f d e) f) as Hf'.
  { unfold inFloors, lit. simpl. by rewrite length_insert. }
  destruct (trip_cycle now (lit s f d e) i l f Hl') as (T1 & T2 & T3 & T4).
  specialize (T4 Hf').
  change (length (trips (lit s f d e))) with n in *.
  rewrite Hcf in *.
  replace (now + Z.abs (f - f) * 2000) with now in * by lia.
  rewrite T4, T3, T2, T1. simpl.
  rewrite checkPendingCalls_empty by done. simpl.
  rewrite !list_lookup_insert_eq by done.
  split; [done|]. split; [done|]. split; [done|].
  split.
  - apply list_insert_id. destruct l. simpl in *. by subst.
  - split; [done|]. split; [done|].
    unfold flag. simpl.
    rewrite floorEntry_insert_eq; [done|]. by rewrite length_insert.
Qed.

(** C8 at the initial state of two lifts: a call at floor 1, where both
    rest. *)
Lemma same_floor_call_witness :
  let s := createInitialState 3 2 in
  reachable s /\ flag s 1 Up = false /\ inFloors s 1 /\
  exists i l,
    liftStates s !! i = Some l /\ status l = idle /\ currentFloor l = 1 /\
    liftStates (step s (Click 0 1 Up)) !! i = Some (mkLiftState 1 moving) /\
    trips (step s (Click 0 1 Up)) = [mkTrip i 1 Travelling 0].
Proof.
  intros s.
  assert (inFloors s 1) as Hf by (unfold inFloors; simpl; lia).
  assert (exists j lj, liftStates s !! j = Some lj /\ status lj = idle /\
            currentFloor lj = 1) as Hex.
  { exists 0%nat, (mkLiftState 1 idle). repeat split. }
  split; [apply reachable_init|]. split; [reflexivity|]. split; [exact Hf|].
  destruct (same_floor_call 0 s 1 Up (reachable_init 3 2) eq_refl Hf Hex)
    as (i & l & Hl & Hi & Hc & (H1 & H2 & _) & _).
  exists i, l. split; [exact Hl|]. split; [exact Hi|]. split; [exact Hc|].
  split; [exact H1|]. exact H2.
Defined.

(** C8 as stated fails: a call at floor 1, where the only lift rests
    idle.  The lift does not skip the status 'moving': after the click it
    is 'moving', its doors are shut and it waits for the travel timer
    (due at once, 0 ms). *)
Lemma same_floor_call_marks_moving :
  let s := step (createInitialState 3 1) (Click 0 1 Up) in
  liftStates s = [mkLiftState 1 moving] /\
  trips s = [mkTrip 0 1 Travelling 0] /\
  doorsOpen s = [false] /\
  status <$> liftStates (step s (Fire 0)) = [moving] /\
  status <$> liftStates (step (step s (Fire 0)) (Fire 0)) = [moving].
Proof. vm_compute. repeat split. Qed.

(** ** Draining does not look at the flags *)

Lemma checkPendingCalls_registry_free now s fc :
  checkPendingCalls now (set_floorCalls fc s)
  = set_floorCalls fc (checkPendingCalls now s).
Proof.
  unfold checkPendingCalls. simpl.
  destruct (pendingCalls s) as [|c rest]; [done|].
  change (findNearestIdleLift (set_pendingCalls rest (set_floorCalls fc s))
            (floor c))
    with (findNearestIdleLift (set_pendingCalls rest s) (floor c)).
  destruct (findNearestIdleLift (set_pendingCalls rest s) (floor c) =? -1);
    [done|].
  unfold moveLift. simpl.
  by destruct (liftStates s !! _).
Qed.

(** C10. [checkPendingCalls] does not read [floorCalls]: it commutes with
    any change of the flags.  So when the first call of the queue has its
    flag out and some lift is idle, the call is taken from the queue all
    the same and an idle lift [i] is sent to its floor: the lift is marked
    'moving', travels for 2000 ms per floor, arrives, opens its doors for
    2500 ms and closes them for 2500 ms; then it is idle at that floor
    and the pending calls are checked again. *)
Theorem drain_ignores_registry (now : Z) (s : Sim) (c : Call)
    (rest : list Call) :
  pendingCalls s = c :: rest ->
  flag s (floor c) (direction c) = false ->
  findNearestIdleLift s (floor c) <> -1 ->
  (forall fc, checkPendingCalls now (set_floorCalls fc s)
              = set_floorCalls fc (checkPendingCalls now s)) /\
  exists i l,
    liftStates s !! i = Some l /\ status l = idle /\
    let n := length (trips s) in
    let d := now + Z.abs (floor c - currentFloor l) * 2000 in
    let s1 := checkPendingCalls now s in
    let s2 := step s1 (Fire n) in
    let s3 := step s2 (Fire n) in
    (pendingCalls s1 = rest /\
     flag s1 (floor c) (direction c) = false /\
     liftStates s1 !! i = Some (mkLiftState (currentFloor l) moving) /\
     trips s1 = trips s ++ [mkTrip i (floor c) Travelling d]) /\
    (liftStates s2 !! i = Some (mkLiftState (floor c) moving) /\
     doorsOpen s2 = <[i := true]> (doorsOpen s) /\
     trips s2 = trips s ++ [mkTrip i (floor c) DoorsOpen (d + 2500)]) /\
    (liftStates s3 !! i = Some (mkLiftState (floor c) moving) /\
     doorsOpen s3 = <[i := false]> (doorsOpen s) /\
     trips s3 = trips s ++ [mkTrip i (floor c) DoorsClosing (d + 5000)]) /\
    (inFloors s (floor c) ->
     step s3 (Fire n)
     = checkPendingCalls (d + 5000)
         (mkSim (<[i := mkLiftState (floor c) idle]> (liftStates s))
            (<[Z.to_nat (floor c) := mkFloorCall false false]> (floorCalls s))
            rest (<[i := false]> (doorsOpen s)) (trips s))).
Proof.
  intros Hq Hflag Hsome.
  split; [intros fc; apply checkPendingCalls_registry_free|].
  destruct (checkPendingCalls_cases now s)
    as [[Hq' _]|(c' & rest' & Hq' & [[Hn _]|(i & l & _ & Hl & Hi & E)])].
  - congruence.
  - rewrite Hq in Hq'. injection Hq' as <- <-. done.
  - rewrite Hq in Hq'. injection Hq' as <- <-.
    exists i, l. split; [done|]. split; [done|].
    intros n d s1 s2 s3. subst s1 s2 s3. rewrite E.
    pose proof (lookup_lt_Some _ _ _ Hl) as Hlt.
    destruct (trip_cycle now (set_pendingCalls rest s) i l (floor c) Hl)
      as (T1 & T2 & T3 & T4).
    change (length (trips (set_pendingCalls rest s))) with n in *.
    fold d in T1, T2, T3, T4.
    split; [|split; [|split]].
    + rewrite T1. simpl. rewrite list_lookup_insert_eq by done.
      split; [done|]. split; [exact Hflag|]. done.
    + rewrite T2. simpl. by rewrite list_lookup_insert_eq.
    + rewrite T3. simpl. by rewrite list_lookup_insert_eq.
    + intros Hf. by rewrite (T4 Hf).
Qed.

(** C10 at [drainSim]: the lift completes its door cycle at floor 3; the
    call (2, down), whose flag went out when the lift served floor 2, is
    taken from the queue and the lift is sent to floor 2 (2000 ms). *)
Lemma drain_ignores_registry_witness :
  let t := mkTrip 0 3 DoorsClosing 14000 in
  let s := cleared drainSim 0 t in
  step drainSim (Fire 0) = checkPendingCalls 14000 s /\
  pendingCalls s = [mkCall 2 Down] /\
  flag s 2 Down = false /\
  findNearestIdleLift s 2 <> -1 /\
  pendingCalls (checkPendingCalls 14000 s) = [] /\
  flag (checkPendingCalls 14000 s) 2 Down = false /\
  trips (checkPendingCalls 14000 s) = [mkTrip 0 2 Travelling 16000].
Proof.
  intros t s.
  assert (findNearestIdleLift s 2 <> -1) as Hn by (vm_compute; discriminate).
  destruct (drain_ignores_registry 14000 s (mkCall 2 Down) [] eq_refl eq_refl
              Hn) as (_ & i & l & _ & _ & (H1 & H2 & _) & _).
  split; [reflexivity|]. split; [reflexivity|].
  split; [reflexivity|]. split; [exact Hn|]. split; [exact H1|].
  split; [exact H2|]. reflexivity.
Defined.

(** ** The start button *)

Lemma newSimulation_Some (f l : Z) :
  -1 <= f <= 4294967294 -> 0 <= l <= 4294967295 ->
  newSimulation (Int f) (Int l) = Some (createInitialState f l).
Proof.
  intros Hf Hl. unfold newSimulation, arrayLength.
  destruct (Z.leb_spec 0 l); [|lia].
  destruct (Z.leb_spec l 4294967295); [|lia].
  destruct (Z.leb_spec 0 (f + 1)); [|lia].
  destruct (Z.leb_spec (f + 1) 4294967295); [|lia]. done.
Qed.

Lemma newSimulation_None (f l : Z) :
  f < -1 \/ 4294967294 < f \/ l < 0 \/ 4294967295 < l ->
  newSimulation (Int f) (Int l) = None.
Proof.
  intros H. unfold newSimulation, arrayLength.
  destruct (Z.leb_spec 0 l), (Z.leb_spec l 4294967295),
    (Z.leb_spec 0 (f + 1)), (Z.leb_spec (f + 1) 4294967295);
    simpl; try done; lia.
Qed.

Lemma startSimulation_refused (page : Page) (floors lifts : Num) :
  withinBounds floors lifts = false ->
  errorMessage (startSimulation page floors lifts) <> EmptyString /\
  simulation (startSimulation page floors lifts) = simulation page.
Proof.
  intros H. unfold startSimulation.
  destruct (isNaN floors || lessThan floors 2 || greaterThan floors 9)
    eqn:E1; [done|].
  destruct (isNaN lifts || lessThan lifts 1 || greaterThan lifts 5)
    eqn:E2; [done|].
  exfalso. destruct floors as [|f| |], lifts as [|l| |]; try done.
  simpl in E1, E2. unfold withinBounds in H.
  apply orb_false_iff in E1 as [E1 E1']. apply orb_false_iff in E2 as [E2 E2'].
  apply Z.ltb_ge in E1, E1', E2, E2'.
  rewrite !andb_false_iff, !Z.leb_gt in H. lia.
Qed.

Lemma functional_start_refused (page : Page) (floors lifts : Num) :
  aboveMinimum floors lifts = false ->
  errorMessage (Functional.startSimulation page floors lifts)
    <> EmptyString /\
  simulation (Functional.startSimulation page floors lifts)
    = simulation page.
Proof.
  intros H. unfold Functional.startSimulation.
  destruct (isNaN floors || lessThan floors 2) eqn:E1; [done|].
  destruct (isNaN lifts || lessThan lifts 1) eqn:E2; [done|].
  exfalso. unfold aboveMinimum, atLeast in H.
  destruct floors as [|f| |], lifts as [|l| |]; try done; simpl in E1, E2;
    try apply Z.ltb_ge in E1; try apply Z.ltb_ge in E2;
    rewrite ?andb_false_iff, ?Z.leb_gt in H;
    try (destruct H as [H|H]; try done; lia).
Qed.

Lemma functional_start_passed (page : Page) (floors lifts : Num) :
  aboveMinimum floors lifts = true ->
  Functional.startSimulation page floors lifts
  = match newSimulation floors lifts with
    | Some sim => mkPage EmptyString (Some sim)
    | None => mkPage EmptyString (simulation page)
    end.
Proof.
  unfold aboveMinimum, atLeast, Functional.startSimulation. intros H.
  apply andb_true_iff in H as [Hf Hl].
  assert (isNaN floors || lessThan floors 2 = false) as ->.
  { destruct floors as [|f| |]; try done. simpl.
    apply Z.leb_le in Hf. apply Z.ltb_ge. lia. }
  assert (isNaN lifts || lessThan lifts 1 = false) as ->.
  { destruct lifts as [|l| |]; try done. simpl.
    apply Z.leb_le in Hl. apply Z.ltb_ge. lia. }
  done.
Qed.

(** C9, as the code has it.  The handler of the class (main.js) refuses
    every input that is not a number, floors outside 2..9 and lifts
    outside 1..5: it shows a message and leaves the page's simulation as
    it was; inside the bounds it clears the message and starts a new
    simulation.  The handler of the functional copy refuses what is not a
    number, floors under 2 and lifts under 1, and nothing else: it has no
    upper bound.  For what it lets through it clears the message and then
    builds the state: that succeeds up to 2^32 - 2 floors and 2^32 - 1
    lifts; beyond that (and for [Infinity]) [Array] throws a RangeError,
    so the message is cleared and no simulation is built. *)
Theorem startSimulation_validation (page : Page) (floors lifts : Num) :
  (withinBounds floors lifts = true ->
   errorMessage (startSimulation page floors lifts) = EmptyString /\
   exists f l, floors = Int f /\ lifts = Int l /\
     simulation (startSimulation page floors lifts)
     = Some (createInitialState f l)) /\
  (withinBounds floors lifts = false ->
   errorMessage (startSimulation page floors lifts) <> EmptyString /\
   simulation (startSimulation page floors lifts) = simulation page) /\
  (aboveMinimum floors lifts = true ->
   errorMessage (Functional.startSimulation page floors lifts) = EmptyString /\
   (fitsArray floors lifts = true ->
    exists f l, floors = Int f /\ lifts = Int l /\
      simulation (Functional.startSimulation page floors lifts)
      = Some (createInitialState f l)) /\
   (fitsArray floors lifts = false ->
    simulation (Functional.startSimulation page floors lifts)
    = simulation page)) /\
  (aboveMinimum floors lifts = false ->
   errorMessage (Functional.startSimulation page floors lifts)
     <> EmptyString /\
   simulation (Functional.startSimulation page floors lifts)
     = simulation page).
Proof.
  split; [|split; [|split]].
  - unfold withinBounds.
    destruct floors as [|f| |], lifts as [|l| |]; try done.
    intros H. rewrite !andb_true_iff, !Z.leb_le in H.
    destruct H as [[[H1 H2] H3] H4].
    unfold startSimulation, isNaN, lessThan, greaterThan.
    rewrite (proj2 (Z.ltb_ge f 2)), (proj2 (Z.ltb_ge 9 f)),
      (proj2 (Z.ltb_ge l 1)), (proj2 (Z.ltb_ge 5 l)) by lia.
    cbn [orb]. rewrite newSimulation_Some by lia.
    split; [done|]. by exists f, l.
  - apply startSimulation_refused.
  - intros H. rewrite functional_start_passed by done.
    unfold aboveMinimum, atLeast in H. apply andb_true_iff in H as [Hf Hl].
    split; [by destruct (newSimulation floors lifts)|]. unfold fitsArray.
    destruct floors as [|f| |], lifts as [|l| |]; try done;
      try (split; [done|by intros _]).
    apply Z.leb_le in Hf, Hl. split.
    + intros H. rewrite andb_true_iff, !Z.leb_le in H.
      rewrite newSimulation_Some by lia. by exists f, l.
    + intros H. rewrite andb_false_iff, !Z.leb_gt in H.
      rewrite newSimulation_None by lia. done.
  - apply functional_start_refused.
Qed.

(** C9 as stated fails on the functional copy: ten floors, or six lifts,
    are accepted there; the message is cleared and the simulation is
    built.  With 2^32 - 1 floors the input is let through as well, the
    message is cleared, and then [Array(floors + 1)] throws: no
    simulation is built and the page keeps the one it had. *)
Lemma functional_start_above_bounds :
  Functional.startSimulation (mkPage EmptyString None) (Int 10) (Int 1)
  = mkPage EmptyString (Some (createInitialState 10 1)) /\
  Functional.startSimulation (mkPage EmptyString None) (Int 3) (Int 6)
  = mkPage EmptyString (Some (createInitialState 3 6)) /\
  Functional.startSimulation
    (mkPage "Please enter a valid number of lifts (Atleast 1)." None)
    (Int 4294967295) (Int 1)
  = mkPage EmptyString None /\
  Functional.startSimulation (mkPage EmptyString None) PosInfinity (Int 1)
  = mkPage EmptyString None.
Proof. repeat split; reflexivity. Qed.

(** The handler of the class on the same inputs, and on input that is
    not a number. *)
Example start_refused :
  startSimulation (mkPage EmptyString None) (Int 10) (Int 1)
  = mkPage "Please enter a valid number of floors (2-9)." None /\
  startSimulation (mkPage EmptyString None) (Int 3) (Int 6)
  = mkPage "Please enter a valid number of lifts (1-5)." None /\
  startSimulation (mkPage EmptyString None) NaN (Int 2)
  = mkPage "Please enter a valid number of floors (2-9)." None /\
  startSimulation (mkPage "Please enter a valid number of lifts (1-5)." None)
    (Int 9) (Int 5)
  = mkPage EmptyString (Some (createInitialState 9 5)).
Proof. repeat split. Qed.

(** * Further properties of the controller *)

(** ** Pressing a button twice *)

Lemma moveLift_floorCalls now s i f :
  floorCalls (moveLift now s i f) = floorCalls s.
Proof. unfold moveLift. by destruct (liftStates s !! i). Qed.

(** After a click at a floor that has an entry the flag is lit. *)
Lemma click_lights_flag now s f d :
  inFloors s f -> flag (step s (Click now f d)) f d = true.
Proof.
  intros Hf. simpl. pose proof (callLift_cases now s f d) as H.
  destruct (proj2 (floorEntry_is_Some (floorCalls s) f) Hf) as [e He].
  rewrite He in H. destruct (getFlag e d) eqn:Hg.
  - rewrite H. unfold flag. by rewrite He.
  - destruct H as [[_ ->]|(i & l & _ & _ & _ & ->)].
    + by apply (lit_flag_eq s f d e).
    + rewrite (flag_ext _ (lit s f d e)) by apply moveLift_floorCalls.
      by apply (lit_flag_eq s f d e).
Qed.

(** X4. The handler is bound to 'click' and to 'touchstart', so one tap
    can run [callLift] twice.  The second run changes nothing: whatever
    the state, the floor and the direction, two clicks on one button in a
    row leave the state that the first click left (also when the floor
    has no entry and both clicks throw). *)
Theorem click_twice (s : Sim) (now now' f : Z) (d : Direction) :
  step (step s (Click now f d)) (Click now' f d) = step s (Click now f d).
Proof.
  destruct (floorEntry (floorCalls s) f) as [e|] eqn:He.
  - assert (inFloors s f) as Hf by (by eapply floorEntry_Some_range).
    pose proof (click_lights_flag now s f d Hf) as Hlit.
    set (s1 := step s (Click now f d)) in *.
    apply flag_true_entry in Hlit as (e1 & He1 & Hg1).
    pose proof (callLift_cases now' s1 f d) as H. rewrite He1, Hg1 in H.
    simpl. by rewrite H.
  - assert (step s (Click now f d) = s) as ->.
    { simpl. pose proof (callLift_cases now s f d) as H. rewrite He in H.
      by rewrite H. }
    simpl. pose proof (callLift_cases now' s f d) as H. rewrite He in H.
    by rewrite H.
Qed.

(** ** Lit flags *)

Lemma elem_of_delete_other {A} (l : list A) (k : nat) (x y : A) :
  l !! k = Some x -> y ∈ l -> y <> x -> y ∈ delete k l.
Proof.
  intros Hk Hy Hne. apply list_elem_of_lookup in Hy as [k0 Hk0].
  apply list_elem_of_lookup.
  destruct (decide (k0 < k)%nat) as [Hlt|Hge].
  - exists k0. by rewrite list_lookup_delete_lt.
  - assert (k0 <> k) by (intros ->; congruence).
    exists (k0 - 1)%nat. rewrite list_lookup_delete_ge by lia.
    by replace (S (k0 - 1)) with k0 by lia.
Qed.

Lemma elem_of_insert_other {A} (l : list A) (k : nat) (x x' y : A) :
  l !! k = Some x -> y ∈ l -> y <> x -> y ∈ <[k := x']> l.
Proof.
  intros Hk Hy Hne. apply list_elem_of_lookup in Hy as [k0 Hk0].
  apply list_elem_of_lookup. exists k0.
  rewrite list_lookup_insert_ne; [done|]. intros ->. congruence.
Qed.

Lemma elem_of_insert_inv {A} (l : list A) (k : nat) (x y : A) :
  y ∈ <[k := x]> l -> y = x \/ y ∈ l.
Proof.
  intros Hy. apply list_elem_of_lookup in Hy as [k0 Hk0].
  apply list_lookup_insert_Some in Hk0 as [(_ & -> & _)|[_ Hk0]].
  - by left.
  - right. by eapply list_elem_of_lookup_2.
Qed.

Lemma lit_flag_inv s f d e g d' :
  floorEntry (floorCalls s) f = Some e ->
  flag (lit s f d e) g d' = true -> g = f \/ flag s g d' = true.
Proof.
  intros He Hg. destruct (decide (g = f)) as [->|Hne]; [by left|right].
  unfold flag, lit in *. simpl in Hg.
  rewrite floorEntry_insert_ne in Hg; [done| |done].
  apply floorEntry_Some_range in He. lia.
Qed.

Lemma cleared_flag_inv s k t e g d :
  floorEntry (floorCalls s) (targetFloor t) = Some e ->
  flag (cleared s k t) g d = true ->
  g <> targetFloor t /\ flag s g d = true.
Proof.
  intros He Hg. pose proof (floorEntry_Some_range _ _ _ He) as Hr.
  destruct (decide (g = targetFloor t)) as [->|Hne].
  - rewrite cleared_flag in Hg by done. done.
  - split; [done|]. unfold flag, cleared in *. simpl in Hg.
    rewrite floorEntry_insert_ne in Hg; [done|lia|done].
Qed.

Lemma awaited_mono s s' f :
  (forall t, t ∈ trips s -> targetFloor t = f ->
     exists t', t' ∈ trips s' /\ targetFloor t' = f) ->
  (forall c, c ∈ pendingCalls s -> floor c = f ->
     awaited s' f) ->
  awaited s f -> awaited s' f.
Proof.
  intros Ht Hc [(t & Hin & Hf)|(c & Hin & Hf)].
  - left. by apply (Ht t).
  - by apply (Hc c).
Qed.

Lemma step_litAwaited s e : litAwaited s -> litAwaited (step s e).
Proof.
  intros HL. unfold litAwaited in *. destruct e as [now f d|k]; simpl.
  - pose proof (callLift_cases now s f d) as H.
    destruct (floorEntry (floorCalls s) f) as [e|] eqn:He; [|by rewrite H].
    destruct (getFlag e d) eqn:Hg; [by rewrite H|].
    destruct H as [[_ ->]|(i & l & _ & Hl & _ & ->)]; intros g d' Hflag.
    + assert (g = f \/ flag s g d' = true) as [->|Hflag'].
      { apply (lit_flag_inv s f d e); [done|exact Hflag]. }
      * right. exists (mkCall f d). split; [|done]. simpl.
        apply elem_of_app. right. by apply list_elem_of_singleton.
      * apply (awaited_mono s); [..|eapply HL; eassumption].
        -- intros t Hin Hf. by exists t.
        -- intros c Hin Hf. right. exists c. split; [|done]. simpl.
           apply elem_of_app. by left.
    + destruct (moveLift_fields now (lit s f d e) i l f Hl)
        as (_ & Hfc & Hq & _ & Ht).
      rewrite (flag_ext _ (lit s f d e)) in Hflag by done.
      assert (g = f \/ flag s g d' = true) as [->|Hflag'].
      { apply (lit_flag_inv s f d e); [done|exact Hflag]. }
      * left.
        exists (mkTrip i f Travelling (now + Z.abs (f - currentFloor l) * 2000)).
        split; [|done]. rewrite Ht.
        apply elem_of_app. right. by apply list_elem_of_singleton.
      * apply (awaited_mono s); [..|eapply HL; eassumption].
        -- intros t Hin Hf. exists t. split; [|done]. rewrite Ht.
           apply elem_of_app. by left.
        -- intros c Hin Hf. right. exists c. by rewrite Hq.
  - destruct (trips s !! k) as [t|] eqn:Hk; [|done].
    destruct (decide (phase t = DoorsClosing)) as [Hp|Hp].
    + unfold resume. rewrite Hp, finish_release.
      destruct (floorEntry (floorCalls s) (targetFloor t)) as [e|] eqn:He.
      * fold (cleared s k t). intros g d Hflag.
        unfold flag in Hflag. rewrite checkPendingCalls_floorCalls in Hflag.
        destruct (cleared_flag_inv s k t e g d He Hflag) as [Hne Hflag'].
        assert (forall t0, t0 ∈ trips s -> targetFloor t0 = g ->
                  t0 ∈ trips (cleared s k t)) as Hkeep.
        { intros t0 Hin Hf. simpl. apply (elem_of_delete_other _ _ t); try done.
          intros ->. done. }
        destruct (checkPendingCalls_cases (due t) (cleared s k t))
          as [[_ ->]|(c & rest & Hq & [[_ ->]|(i & l & _ & Hl & _ & ->)])].
        -- apply (awaited_mono s); [..|eapply HL; eassumption].
           ++ intros t0 Hin Hf. exists t0. split; [by apply Hkeep|done].
           ++ intros c Hin Hf. right. by exists c.
        -- apply (awaited_mono s); [..|eapply HL; eassumption].
           ++ intros t0 Hin Hf. exists t0. split; [by apply Hkeep|done].
           ++ intros c0 Hin Hf. right. by exists c0.
        -- destruct (moveLift_fields (due t)
                       (set_pendingCalls rest (cleared s k t)) i l (floor c)
                       Hl) as (_ & _ & Hq' & _ & Ht).
           apply (awaited_mono s); [..|eapply HL; eassumption].
           ++ intros t0 Hin Hf. exists t0. split; [|done]. rewrite Ht.
              apply elem_of_app. left. by apply Hkeep.
           ++ intros c0 Hin Hf. simpl in Hq. rewrite Hq in Hin.
              apply elem_of_cons in Hin as [->|Hin].
              ** left.
                 exists (mkTrip i (floor c) Travelling
                           (due t + Z.abs (floor c - currentFloor l) * 2000)).
                 split; [|done]. rewrite Ht.
                 apply elem_of_app. right. by apply list_elem_of_singleton.
              ** right. exists c0. by rewrite Hq'.
      * intros g d Hflag.
        assert (flag s g d = true) as Hflag' by done.
        apply (awaited_mono s); [..|eapply HL; eassumption].
        -- intros t0 Hin Hf. exists t0. split; [|done]. simpl.
           apply (elem_of_delete_other _ _ t); try done. intros ->.
           unfold flag in Hflag'. rewrite <- Hf, He in Hflag'. done.
        -- intros c Hin Hf. right. by exists c.
    + destruct (resume_early_frame s k t Hp) as [Hq Hfc].
      intros g d Hflag. rewrite (flag_ext _ s) in Hflag by done.
      apply (awaited_mono s); [..|eapply HL; eassumption].
      * intros t0 Hin Hf. destruct (decide (t0 = t)) as [->|Hne].
        -- exists (mkTrip (liftIndex t) (targetFloor t)
                     (match phase t with Travelling => DoorsOpen
                      | _ => DoorsClosing end)
                     (due t + 2500)).
           split; [|done]. unfold resume.
           destruct (phase t); [| |done]; simpl;
             apply list_elem_of_insert; by eapply lookup_lt_Some.
        -- exists t0. split; [|done]. unfold resume.
           destruct (phase t); [| |done]; simpl;
             by apply (elem_of_insert_other _ _ t).
      * intros c Hin Hf. right. exists c. by rewrite Hq.
Qed.

Lemma reachable_litAwaited s : reachable s -> litAwaited s.
Proof.
  induction 1 as [floors lifts|s e _ IH].
  - intros f d Hflag. unfold flag, floorEntry in Hflag. simpl in Hflag.
    destruct (f <? 0); [done|].
    destruct (replicate _ _ !! _) as [c|] eqn:E; [|done].
    apply lookup_replicate in E as [-> _]. by destruct d.
  - by apply step_litAwaited.
Qed.

(** X5. In every reachable state a lit flag is for an awaited floor: an
    activation of [moveLift] with that floor as its target is in flight,
    or a call for that floor is in the queue.  (Flags are only put out
    when a lift completes its door cycle at their floor, and that event
    removes nothing else that a lit flag of another floor relies on.) *)
Theorem lit_flag_awaited (s : Sim) :
  reachable s -> forall f d, flag s f d = true -> awaited s f.
Proof.
  intros Hr. by apply reachable_litAwaited.
Qed.

Lemma lit_flag_awaited_witness :
  reachable queueLitSim /\ flag queueLitSim 3 Down = true /\
  awaited queueLitSim 3.
Proof.
  assert (reachable queueLitSim) as Hr.
  { apply (reachable_run (createInitialState 3 1) queueLitEvents).
    apply reachable_init. }
  split; [exact Hr|]. split; [reflexivity|].
  exact (lit_flag_awaited queueLitSim Hr 3 Down eq_refl).
Defined.

(** ** The doors *)

Lemma elem_of_insert_pos {A} (l : list A) (k : nat) (x y : A) :
  y ∈ <[k := x]> l -> y = x \/ exists k0, k0 <> k /\ l !! k0 = Some y.
Proof.
  intros Hy. apply list_elem_of_lookup in Hy as [k0 Hk0].
  apply list_lookup_insert_Some in Hk0 as [(_ & -> & _)|[Hne Hk0]].
  - by left.
  - right. exists k0. by split.
Qed.

(** Two activations of one lift are one activation. *)
Lemma trips_same_lift s k1 k2 t1 t2 :
  Inv0 s -> trips s !! k1 = Some t1 -> trips s !! k2 = Some t2 ->
  liftIndex t1 = liftIndex t2 -> k1 = k2.
Proof.
  intros HI H1 H2 He.
  apply (NoDup_lookup (liftIndex <$> trips s) k1 k2 (liftIndex t1)).
  - apply (inv_nodup s HI).
  - by rewrite list_lookup_fmap, H1.
  - by rewrite list_lookup_fmap, H2, He.
Qed.

Lemma doorsMatch_frame s s' :
  doorsMatch s -> length (liftStates s') = length (liftStates s) ->
  doorsOpen s' = doorsOpen s ->
  (forall t, phase t = DoorsOpen -> (t ∈ trips s' <-> t ∈ trips s)) ->
  doorsMatch s'.
Proof.
  intros [Hlen HD] El Ed Ht. split; [by rewrite Ed, El|].
  intros i. rewrite Ed, HD. split.
  - intros (t & Hin & Hi & Hp). exists t. split; [by apply Ht|done].
  - intros (t & Hin & Hi & Hp). exists t. split; [by apply Ht|done].
Qed.

Lemma moveLift_doorsMatch now s i l f :
  liftStates s !! i = Some l -> doorsMatch s ->
  doorsMatch (moveLift now s i f).
Proof.
  intros Hl HD.
  destruct (moveLift_fields now s i l f Hl) as (El & _ & _ & Ed & Et).
  apply (doorsMatch_frame s); [done| |done|].
  - by rewrite El, length_insert.
  - intros t Hp. rewrite Et, elem_of_app, list_elem_of_singleton.
    split; [|by left]. intros [?| ->]; [done|]. done.
Qed.

Lemma checkPendingCalls_doorsMatch now s :
  doorsMatch s -> doorsMatch (checkPendingCalls now s).
Proof.
  intros HD.
  destruct (checkPendingCalls_cases now s)
    as [[_ ->]|(c & rest & Hq & [[_ ->]|(i & l & _ & Hl & _ & ->)])];
    [done|done|].
  apply (moveLift_doorsMatch _ _ _ l); [done|].
  by apply (doorsMatch_frame s).
Qed.

Lemma step_doorsMatch s e : Inv0 s -> doorsMatch s -> doorsMatch (step s e).
Proof.
  intros HI HD. destruct e as [now f d|k]; simpl.
  - pose proof (callLift_cases now s f d) as H.
    destruct (floorEntry (floorCalls s) f) as [e|] eqn:He; [|by rewrite H].
    destruct (getFlag e d) eqn:Hg; [by rewrite H|].
    destruct H as [[_ ->]|(i & l & _ & Hl & _ & ->)].
    + by apply (doorsMatch_frame s).
    + apply (moveLift_doorsMatch _ _ _ l); [done|].
      by apply (doorsMatch_frame s).
  - destruct (trips s !! k) as [t|] eqn:Hk; [|done].
    pose proof (trip_lift_lt s k t HI Hk) as Hlt.
    pose proof (lookup_lt_Some _ _ _ Hk) as Hklt.
    destruct HD as [Hlen HD]. unfold resume.
    destruct (phase t) eqn:Hp.
    + split; [simpl; by rewrite length_insert, length_alter|].
      intros j. simpl. destruct (decide (j = liftIndex t)) as [->|Hne].
      * rewrite list_lookup_insert_eq by lia. split; [intros _|done].
        eexists. split; [by apply list_elem_of_insert|]. done.
      * rewrite list_lookup_insert_ne by done. rewrite HD. split.
        -- intros (t0 & Hin & Hi & Hp0). exists t0. split; [|done].
           apply (elem_of_insert_other _ _ t); try done. intros ->. done.
        -- intros (t0 & Hin & Hi & Hp0).
           apply elem_of_insert_pos in Hin as [->|(k0 & _ & Hk0)];
             [done|].
           exists t0. split; [by eapply list_elem_of_lookup_2|done].
    + split; [simpl; by rewrite length_insert|].
      intros j. simpl. destruct (decide (j = liftIndex t)) as [->|Hne].
      * rewrite list_lookup_insert_eq by lia. split; [done|].
        intros (t0 & Hin & Hi & Hp0).
        apply elem_of_insert_pos in Hin as [->|(k0 & Hk0ne & Hk0)];
          [done|].
        destruct Hk0ne. by apply (trips_same_lift s k0 k t0 t).
      * rewrite list_lookup_insert_ne by done. rewrite HD. split.
        -- intros (t0 & Hin & Hi & Hp0). exists t0. split; [|done].
           apply (elem_of_insert_other _ _ t); try done. intros ->. done.
        -- intros (t0 & Hin & Hi & Hp0).
           apply elem_of_insert_pos in Hin as [->|(k0 & _ & Hk0)];
             [done|].
           exists t0. split; [by eapply list_elem_of_lookup_2|done].
    + assert (doorsMatch (release s k t)) as HR.
      { apply (doorsMatch_frame s); [by split|simpl; by rewrite length_alter
                                     |done|].
        intros t0 Hp0. simpl. split.
        - apply list_elem_of_delete_inv.
        - intros Hin. apply (elem_of_delete_other _ _ t); try done.
          intros ->. congruence. }
      rewrite finish_release.
      destruct (floorEntry (floorCalls s) (targetFloor t)); [|done].
      apply checkPendingCalls_doorsMatch. by apply (doorsMatch_frame (release s k t)).
Qed.

Lemma reachable_doorsMatch s : reachable s -> doorsMatch s.
Proof.
  induction 1 as [floors lifts|s e Hr IH].
  - split; [simpl; by rewrite !length_replicate|].
    intros i. simpl. split.
    + intros H. by apply lookup_replicate in H as [? _].
    + intros (t & Hin & _). by apply elem_of_nil in Hin.
  - apply step_doorsMatch; [|done]. by apply reachable_Inv.
Qed.

(** X6. In every reachable state the doors of a lift carry the class
    'open' exactly while an activation of that lift waits at the first
    door timer, that is between its arrival and 2500 ms later.  So the
    doors of an idle lift are shut, and so are the doors of a lift that is
    travelling: the lift never moves with its doors open. *)
Theorem doors_open_only_after_arrival (s : Sim) (i : nat) (l : LiftState) :
  reachable s -> liftStates s !! i = Some l ->
  (doorsOpen s !! i = Some true <->
   exists t, t ∈ trips s /\ liftIndex t = i /\ phase t = DoorsOpen) /\
  (status l = idle -> doorsOpen s !! i = Some false) /\
  (forall t, t ∈ trips s -> liftIndex t = i -> phase t = Travelling ->
     doorsOpen s !! i = Some false).
Proof.
  intros Hr Hl. pose proof (reachable_doorsMatch s Hr) as [Hlen HD].
  pose proof (reachable_Inv s Hr) as [HI _].
  assert (exists b, doorsOpen s !! i = Some b) as [b Hb].
  { apply lookup_lt_is_Some. rewrite Hlen. by eapply lookup_lt_Some. }
  split; [apply HD|]. split.
  - intros Hidle. destruct b; [|done].
    apply HD in Hb as (t & Hin & Hi & _).
    assert (status l = moving); [|congruence].
    apply (inv_moving s HI i l Hl). apply list_elem_of_fmap.
    exists t. by split.
  - intros t Hin Hi Hp. destruct b; [|done].
    apply HD in Hb as (t0 & Hin0 & Hi0 & Hp0).
    apply list_elem_of_lookup in Hin as [k Hk].
    apply list_elem_of_lookup in Hin0 as [k0 Hk0].
    assert (k = k0) as ->.
    { apply (trips_same_lift s k k0 t t0); try done. congruence. }
    congruence.
Qed.

Lemma doors_open_only_after_arrival_witness :
  reachable queueLitSim /\
  liftStates queueLitSim !! 0%nat = Some (mkLiftState 1 moving) /\
  doorsOpen queueLitSim !! 0%nat = Some false.
Proof.
  assert (reachable queueLitSim) as Hr.
  { apply (reachable_run (createInitialState 3 1) queueLitEvents).
    apply reachable_init. }
  split; [exact Hr|]. split; [reflexivity|].
  destruct (doors_open_only_after_arrival queueLitSim 0
              (mkLiftState 1 moving) Hr eq_refl) as (_ & _ & Htrav).
  apply (Htrav (mkTrip 0 2 Travelling 2000)); [|reflexivity|reflexivity].
  apply (list_elem_of_lookup_2 _ 0%nat). reflexivity.
Defined.

(** ** The timers that are left *)

Lemma sum_list_with_insert {A} (f : A -> nat) (l : list A) k x y :
  l !! k = Some x ->
  (sum_list_with f (<[k := y]> l) + f x = sum_list_with f l + f y)%nat.
Proof.
  revert k. induction l as [|a l IH]; intros [|k] Hk; try done; simpl in *.
  - injection Hk as ->. lia.
  - specialize (IH k Hk). lia.
Qed.

Lemma sum_list_with_delete {A} (f : A -> nat) (l : list A) k x :
  l !! k = Some x ->
  (sum_list_with f (delete k l) + f x = sum_list_with f l)%nat.
Proof.
  revert k. induction l as [|a l IH]; intros [|k] Hk; try done; simpl in *.
  - injection Hk as ->. lia.
  - specialize (IH k Hk). lia.
Qed.

(** Every callback of a pending timer is one callback less to come. *)
Lemma fire_timersLeft s k t :
  Inv s -> trips s !! k = Some t ->
  (timersLeft (step s (Fire k)) + 1 = timersLeft s)%nat.
Proof.
  intros HI Hk. pose proof HI as [HI0 _]. unfold timersLeft.
  destruct (phase t) eqn:Hp.
  - rewrite (step_arrive s k t) by done. simpl.
    pose proof (sum_list_with_insert (fun t => phaseLeft (phase t))
                  (trips s) k t
                  (mkTrip (liftIndex t) (targetFloor t) DoorsOpen
                     (due t + 2500)) Hk) as H.
    simpl in H. rewrite Hp in H. simpl in H. lia.
  - rewrite (step_closeDoors s k t) by done. simpl.
    pose proof (sum_list_with_insert (fun t => phaseLeft (phase t))
                  (trips s) k t
                  (mkTrip (liftIndex t) (targetFloor t) DoorsClosing
                     (due t + 2500)) Hk) as H.
    simpl in H. rewrite Hp in H. simpl in H. lia.
  - pose proof (sum_list_with_delete (fun t => phaseLeft (phase t))
                  (trips s) k t Hk) as H.
    simpl in H. rewrite Hp in H. simpl in H.
    assert (step s (Fire k) = finish s k t) as ->.
    { simpl. rewrite Hk. unfold resume. by rewrite Hp. }
    destruct (pendingCalls s) as [|c rest] eqn:Hq.
    + rewrite finish_idle_queue by done. simpl. rewrite Hq. simpl. lia.
    + rewrite (finish_serves_head s k t c rest) by done.
      destruct (lookup_lt_is_Some_2 (liftStates s) (liftIndex t))
        as [l0 Hl0].
      { by eapply trip_lift_lt. }
      assert (liftStates (set_pendingCalls rest (cleared s k t))
                !! liftIndex t
              = Some (mkLiftState (currentFloor l0) idle)) as Hidle.
      { simpl. by rewrite list_lookup_alter_eq, Hl0. }
      destruct (moveLift_fields (due t) _ _ _ (floor c) Hidle)
        as (_ & _ & -> & _ & ->).
      rewrite sum_list_with_app. simpl. lia.
Qed.

Lemma firesPending_timersLeft s evs :
  reachable s -> firesPending s evs = true ->
  (timersLeft (run s evs) + length evs = timersLeft s)%nat.
Proof.
  revert s. induction evs as [|[now f d|k] evs IH]; intros s Hr Hv;
    simpl in Hv; [simpl; lia|done|].
  apply andb_true_iff in Hv as [Hk Hv]. apply bool_decide_eq_true in Hk.
  apply lookup_lt_is_Some in Hk as [t Hk].
  rewrite run_cons. simpl length.
  pose proof (fire_timersLeft s k t (reachable_Inv s Hr) Hk).
  specialize (IH (step s (Fire k)) (reachable_step _ _ Hr) Hv). lia.
Qed.

Lemma atRest_timersLeft s : reachable s -> atRest s <-> timersLeft s = 0%nat.
Proof.
  intros Hr. unfold timersLeft. split.
  - intros (-> & -> & _). done.
  - intros H0.
    assert (pendingCalls s = []) as Hq.
    { destruct (pendingCalls s); [done|]. simpl in H0. lia. }
    assert (trips s = []) as Ht.
    { destruct (trips s) as [|t ts]; [done|]. simpl in H0.
      destruct (phase t); simpl in H0; lia. }
    pose proof (reachable_Inv s Hr) as [HI _].
    pose proof (reachable_doorsMatch s Hr) as [Hlen HD].
    pose proof (reachable_litAwaited s Hr) as HL.
    split; [done|]. split; [done|]. split.
    + intros i l Hl. split.
      * destruct (status l) eqn:E; [done|].
        apply (inv_moving s HI i l Hl) in E. rewrite Ht in E.
        by apply elem_of_nil in E.
      * destruct (lookup_lt_is_Some_2 (doorsOpen s) i) as [b Hb].
        { rewrite Hlen. by eapply lookup_lt_Some. }
        destruct b; [|done].
        apply HD in Hb as (t & Hin & _). rewrite Ht in Hin.
        by apply elem_of_nil in Hin.
    + intros f d. destruct (flag s f d) eqn:E; [|done].
      destruct (HL f d E) as [(t & Hin & _)|(c & Hin & _)].
      * rewrite Ht in Hin. by apply elem_of_nil in Hin.
      * rewrite Hq in Hin. by apply elem_of_nil in Hin.
Qed.

Lemma timers_fire_to_rest n : forall s,
  reachable s -> liftStates s <> [] -> timersLeft s = n ->
  exists evs, firesPending s evs = true /\ atRest (run s evs).
Proof.
  induction n as [|n IH]; intros s Hr Hl Hn.
  - exists []. split; [done|]. by apply atRest_timersLeft.
  - assert (exists t, trips s !! 0%nat = Some t) as [t Hk].
    { destruct (trips s) as [|t ts] eqn:Et; [|by exists t].
      destruct (pending_has_timer s); try done.
      - by apply reachable_Inv.
      - intros Hq. unfold timersLeft in Hn. rewrite Hq, Et in Hn. done. }
    pose proof (fire_timersLeft s 0 t (reachable_Inv s Hr) Hk) as H1.
    destruct (IH (step s (Fire 0))) as (evs & Hv & HR).
    + by constructor.
    + intros E. apply Hl, length_zero_iff_nil.
      by rewrite <- (step_lifts_length s (Fire 0)), E.
    + lia.
    + exists (Fire 0 :: evs). split; [|done].
      change (firesPending s (Fire 0 :: evs))
        with (bool_decide (0 < length (trips s))%nat
              && firesPending (step s (Fire 0)) evs).
      rewrite Hv, andb_true_r. apply bool_decide_eq_true.
      by eapply lookup_lt_Some.
Qed.

(** X7. If nobody presses a button, the simulation comes to rest, and
    after a number of timer callbacks that the state fixes: three for
    every queued call, and for every activation in flight the timers it
    still waits for.  From a reachable state, whatever the order in which
    the pending timers fire, every callback lowers that number by one, and
    the state is at rest (nothing in flight, empty queue, every lift idle
    with its doors shut, every flag out) exactly when it has come down to
    zero.  With at least one lift there is always a pending timer to
    fire until then, so the state at rest is reached. *)
Theorem timers_settle (s : Sim) :
  reachable s ->
  (forall evs, firesPending s evs = true ->
     (timersLeft (run s evs) + length evs = timersLeft s)%nat /\
     (atRest (run s evs) <-> length evs = timersLeft s)) /\
  (liftStates s <> [] ->
   exists evs, firesPending s evs = true /\ atRest (run s evs)).
Proof.
  intros Hr. split.
  - intros evs Hv. pose proof (firesPending_timersLeft s evs Hr Hv) as H.
    split; [done|].
    rewrite (atRest_timersLeft (run s evs)) by by apply reachable_run.
    lia.
  - intros Hl. by apply (timers_fire_to_rest (timersLeft s)).
Qed.

Lemma timers_settle_witness :
  reachable queueLitSim /\
  timersLeft queueLitSim = 6%nat /\
  atRest (run queueLitSim
            [Fire 0; Fire 0; Fire 0; Fire 0; Fire 0; Fire 0]).
Proof.
  assert (reachable queueLitSim) as Hr.
  { apply (reachable_run (createInitialState 3 1) queueLitEvents).
    apply reachable_init. }
  split; [exact Hr|]. split; [reflexivity|].
  destruct (timers_settle queueLitSim Hr) as [Hall _].
  destruct (Hall [Fire 0; Fire 0; Fire 0; Fire 0; Fire 0; Fire 0] eq_refl)
    as [_ Hiff].
  apply Hiff. reflexivity.
Defined.

(** ** Where the lifts stand *)

Lemma arrived_frame s s' :
  arrived s ->
  (forall i l, liftStates s !! i = Some l ->
     exists l', liftStates s' !! i = Some l' /\
       currentFloor l' = currentFloor l) ->
  (forall t, phase t <> Travelling -> t ∈ trips s' -> t ∈ trips s) ->
  arrived s'.
Proof.
  intros HA Hl Ht t Hin Hp.
  destruct (HA t (Ht t Hp Hin) Hp) as (l & Hi & Hc).
  destruct (Hl _ _ Hi) as (l' & Hi' & Hc'). exists l'. split; [done|].
  congruence.
Qed.

Lemma moveLift_currentFloor now s i f j l :
  liftStates s !! j = Some l ->
  exists l', liftStates (moveLift now s i f) !! j = Some l' /\
    currentFloor l' = currentFloor l.
Proof.
  intros Hj. unfold moveLift.
  destruct (liftStates s !! i) as [li|] eqn:Hi; [|by exists l].
  simpl. destruct (decide (j = i)) as [->|Hne].
  - rewrite list_lookup_insert_eq by by eapply lookup_lt_Some.
    eexists. split; [done|]. simpl. congruence.
  - rewrite list_lookup_insert_ne by done. by exists l.
Qed.

Lemma moveLift_arrived now s i f : arrived s -> arrived (moveLift now s i f).
Proof.
  intros HA. apply (arrived_frame s); [done|..].
  - intros j l. apply moveLift_currentFloor.
  - intros t Hp. unfold moveLift.
    destruct (liftStates s !! i); [|done]. simpl.
    rewrite elem_of_app, list_elem_of_singleton. intros [?| ->]; done.
Qed.

Lemma checkPendingCalls_arrived now s :
  arrived s -> arrived (checkPendingCalls now s).
Proof.
  intros HA.
  destruct (checkPendingCalls_cases now s)
    as [[_ ->]|(c & rest & Hq & [[_ ->]|(i & l & _ & Hl & _ & ->)])];
    [done|done|].
  by apply moveLift_arrived.
Qed.

Lemma step_arrived s e : Inv0 s -> arrived s -> arrived (step s e).
Proof.
  intros HI HA. destruct e as [now f d|k]; simpl.
  - pose proof (callLift_cases now s f d) as H.
    destruct (floorEntry (floorCalls s) f) as [e|] eqn:He; [|by rewrite H].
    destruct (getFlag e d) eqn:Hg; [by rewrite H|].
    destruct H as [[_ ->]|(i & l & _ & Hl & _ & ->)]; [done|].
    by apply moveLift_arrived.
  - destruct (trips s !! k) as [t|] eqn:Hk; [|done].
    pose proof (trip_lift_lt s k t HI Hk) as Hlt.
    apply lookup_lt_is_Some in Hlt as [l0 Hl0].
    unfold resume. destruct (phase t) eqn:Hp.
    + intros t0 Hin Hp0. simpl in *.
      apply elem_of_insert_pos in Hin as [->|(k0 & Hne & Hk0)].
      * simpl. rewrite list_lookup_alter_eq, Hl0. simpl. by eexists.
      * rewrite list_lookup_alter_ne.
        -- apply HA; [by eapply list_elem_of_lookup_2|done].
        -- intros E. apply Hne. by apply (trips_same_lift s k0 k t0 t).
    + intros t0 Hin Hp0. simpl in *.
      apply elem_of_insert_pos in Hin as [->|(k0 & Hne & Hk0)].
      * simpl. apply (HA t); [by eapply list_elem_of_lookup_2|].
        by rewrite Hp.
      * apply HA; [by eapply list_elem_of_lookup_2|done].
    + assert (arrived (release s k t)) as HR.
      { apply (arrived_frame s); [done|..].
        - intros i l Hi. simpl. rewrite list_lookup_alter.
          destruct (decide (liftIndex t = i)) as [->|Hne].
          + rewrite Hi. simpl. by eexists.
          + by exists l.
        - intros t0 _. simpl. apply list_elem_of_delete_inv. }
      rewrite finish_release.
      destruct (floorEntry (floorCalls s) (targetFloor t)); [|done].
      by apply checkPendingCalls_arrived.
Qed.

Lemma reachable_arrived s : reachable s -> arrived s.
Proof.
  induction 1 as [floors lifts|s e Hr IH].
  - intros t Hin. by apply elem_of_nil in Hin.
  - apply step_arrived; [|done]. by apply reachable_Inv.
Qed.

(** X8. A lit button goes out only by a visit.  In a reachable state, if
    an event puts out the flag of floor [f] in some direction, then the
    event is the last door timer of an activation with target [f]: its
    lift stands at floor [f], marked 'moving', its doors shut again after
    their cycle there.  No click and no other timer puts a flag out. *)
Theorem flag_out_only_after_visit (s : Sim) (e : Event) (f : Z)
    (d : Direction) :
  reachable s -> flag s f d = true -> flag (step s e) f d = false ->
  exists k t,
    e = Fire k /\ trips s !! k = Some t /\ phase t = DoorsClosing /\
    targetFloor t = f /\
    liftStates s !! liftIndex t = Some (mkLiftState f moving) /\
    doorsOpen s !! liftIndex t = Some false.
Proof.
  intros Hr Hon Hoff. pose proof (reachable_Inv s Hr) as [HI _].
  destruct e as [now g d'|k]; simpl in Hoff.
  - pose proof (callLift_cases now s g d') as H.
    destruct (floorEntry (floorCalls s) g) as [e|] eqn:He;
      [|rewrite H in Hoff; congruence].
    destruct (getFlag e d') eqn:Hg; [rewrite H in Hoff; congruence|].
    pose proof (lit_flag_mono s g d' e f d He Hon) as Hlit.
    destruct H as [[_ H]|(i & l & _ & _ & _ & H)]; rewrite H in Hoff.
    + rewrite (flag_ext _ (lit s g d' e)) in Hoff by done. congruence.
    + rewrite (flag_ext _ (lit s g d' e)) in Hoff
        by apply moveLift_floorCalls.
      congruence.
  - destruct (trips s !! k) as [t|] eqn:Hk; [|congruence].
    destruct (decide (phase t = DoorsClosing)) as [Hp|Hp].
    + assert (targetFloor t = f) as Hf.
      { unfold resume in Hoff. rewrite Hp, finish_release in Hoff.
        destruct (floorEntry (floorCalls s) (targetFloor t)) as [e|] eqn:He.
        - fold (cleared s k t) in Hoff.
          rewrite (flag_ext _ (cleared s k t)) in Hoff
            by apply checkPendingCalls_floorCalls.
          destruct (decide (targetFloor t = f)) as [|Hne]; [done|].
          unfold flag, cleared in Hoff. simpl in Hoff.
          rewrite floorEntry_insert_ne in Hoff; [| |done].
          + unfold flag in Hon. congruence.
          + apply floorEntry_Some_range in He. lia.
        - rewrite (flag_ext _ s) in Hoff by done. congruence. }
      exists k, t. split; [done|]. split; [done|]. split; [done|].
      split; [done|].
      assert (t ∈ trips s) as Hin by by eapply list_elem_of_lookup_2.
      destruct (reachable_arrived s Hr t Hin) as ([c st] & Hl & Hc).
      { by rewrite Hp. }
      simpl in Hc. subst c.
      assert (st = moving) as ->.
      { apply (inv_moving s HI _ _ Hl). apply list_elem_of_fmap.
        by exists t. }
      rewrite Hf in Hl. split; [done|].
      pose proof (reachable_doorsMatch s Hr) as [Hlen HD].
      destruct (lookup_lt_is_Some_2 (doorsOpen s) (liftIndex t)) as [b Hb].
      { rewrite Hlen. by eapply lookup_lt_Some. }
      destruct b; [|done].
      apply HD in Hb as (t0 & Hin0 & Hi0 & Hp0).
      apply list_elem_of_lookup in Hin0 as [k0 Hk0].
      assert (k0 = k) as -> by by apply (trips_same_lift s k0 k t0 t).
      congruence.
    + destruct (resume_early_frame s k t Hp) as [_ Hfc].
      rewrite (flag_ext _ s) in Hoff by done. congruence.
Qed.

Lemma flag_out_only_after_visit_witness :
  reachable drainSim /\ flag drainSim 3 Down = true /\
  flag (step drainSim (Fire 0)) 3 Down = false /\
  liftStates drainSim !! 0%nat = Some (mkLiftState 3 moving).
Proof.
  assert (reachable drainSim) as Hr.
  { apply (reachable_run (createInitialState 3 1) drainEvents).
    apply reachable_init. }
  split; [exact Hr|]. split; [reflexivity|]. split; [reflexivity|].
  destruct (flag_out_only_after_visit drainSim (Fire 0) 3 Down Hr
              eq_refl eq_refl) as (k & t & Hk & Ht & _ & _ & Hl & _).
  injection Hk as <-. injection Ht as <-. exact Hl.
Defined.

(** ** Lifts go where they were called *)

Lemma called_mono evs e f : called evs f -> called (evs ++ [e]) f.
Proof.
  intros (now & d & H). exists now, d. apply elem_of_app. by left.
Qed.

Lemma called_last evs now f d : called (evs ++ [Click now f d]) f.
Proof.
  exists now, d. apply elem_of_app. right. by apply list_elem_of_singleton.
Qed.

Lemma lit_flag_inv_dir s f d e g d' :
  floorEntry (floorCalls s) f = Some e ->
  flag (lit s f d e) g d' = true ->
  (g = f /\ d' = d) \/ flag s g d' = true.
Proof.
  intros He Hg. destruct (decide (g = f)) as [->|Hne].
  - unfold flag, lit in *. simpl in Hg.
    rewrite floorEntry_insert_eq in Hg by by eapply floorEntry_Some_range.
    rewrite getFlag_setFlag in Hg. rewrite He.
    destruct (decide (d = d')) as [->|_]; [by left|by right].
  - right. unfold flag, lit in *. simpl in Hg.
    rewrite floorEntry_insert_ne in Hg; [done| |done].
    apply floorEntry_Some_range in He. lia.
Qed.

Lemma moveLift_calledOnly evs now s i f :
  calledOnly evs s -> called evs f -> calledOnly evs (moveLift now s i f).
Proof.
  intros (Ht & Hq & Hfl & Hl) Hf. unfold moveLift.
  destruct (liftStates s !! i) as [li|] eqn:Hi; [|done].
  split; [|split; [|split]]; simpl.
  - intros t. rewrite elem_of_app, list_elem_of_singleton.
    intros [Hin| ->]; [by apply Ht|done].
  - done.
  - done.
  - intros j l Hj. destruct (decide (j = i)) as [->|Hne].
    + rewrite list_lookup_insert_eq in Hj by by eapply lookup_lt_Some.
      injection Hj as <-. simpl. by apply (Hl i li).
    + rewrite list_lookup_insert_ne in Hj by done. by apply (Hl j l).
Qed.

Lemma checkPendingCalls_calledOnly evs now s :
  calledOnly evs s -> calledOnly evs (checkPendingCalls now s).
Proof.
  intros HC.
  destruct (checkPendingCalls_cases now s)
    as [[_ ->]|(c & rest & Hq & [[_ ->]|(i & l & _ & Hl & _ & ->)])];
    [done|done|].
  destruct HC as (Ht & Hp & Hfl & Hls).
  apply moveLift_calledOnly.
  - split; [done|]. split; [|done]. simpl. intros c0 Hin. apply Hp.
    rewrite Hq. by apply elem_of_cons; right.
  - destruct (Hp c) as [now' H]; [rewrite Hq; by apply elem_of_cons; left|].
    by exists now', (direction c).
Qed.

Lemma calledOnly_mono evs e s : calledOnly evs s -> calledOnly (evs ++ [e]) s.
Proof.
  intros (Ht & Hp & Hfl & Hl). split; [|split; [|split]].
  - intros t Hin. by apply called_mono, Ht.
  - intros c Hin. destruct (Hp c Hin) as [now H]. exists now.
    apply elem_of_app. by left.
  - intros f d Hf. destruct (Hfl f d Hf) as [now H]. exists now.
    apply elem_of_app. by left.
  - intros i l Hi. destruct (Hl i l Hi) as [?|?]; [by left|right].
    by apply called_mono.
Qed.

Lemma step_calledOnly evs s e :
  calledOnly evs s -> calledOnly (evs ++ [e]) (step s e).
Proof.
  intros HC. pose proof (calledOnly_mono evs e s HC) as HC'.
  destruct e as [now f d|k]; simpl.
  - pose proof (callLift_cases now s f d) as H.
    destruct (floorEntry (floorCalls s) f) as [e|] eqn:He; [|by rewrite H].
    destruct (getFlag e d) eqn:Hg; [by rewrite H|].
    assert (calledOnly (evs ++ [Click now f d]) (lit s f d e)) as HL.
    { destruct HC' as (Ht & Hp & Hfl & Hl).
      split; [done|]. split; [done|]. split; [|done].
      intros g d' Hflag.
      destruct (lit_flag_inv_dir s f d e g d' He Hflag) as [[-> ->]|Hold].
      - exists now. apply elem_of_app. right.
        by apply list_elem_of_singleton.
      - by apply Hfl. }
    destruct H as [[_ ->]|(i & l & _ & Hl & _ & ->)].
    + destruct HL as (Ht & Hp & Hfl & Hls).
      split; [done|]. split; [|done]. simpl. intros c.
      rewrite elem_of_app, list_elem_of_singleton. intros [Hin| ->].
      * by apply Hp.
      * exists now. simpl. apply elem_of_app. right.
        by apply list_elem_of_singleton.
    + apply moveLift_calledOnly; [done|]. apply called_last.
  - destruct (trips s !! k) as [t|] eqn:Hk; [|done].
    destruct HC' as (Ht & Hp & Hfl & Hl). set (evs' := evs ++ [Fire k]) in *.
    assert (called evs' (targetFloor t)) as Hcalled.
    { apply Ht. by eapply list_elem_of_lookup_2. }
    unfold resume. destruct (phase t) eqn:Hph.
    + split; [|split; [|split]]; simpl; [|done|done|].
      * intros t0 Hin. apply elem_of_insert_inv in Hin as [->|Hin];
          [done|by apply Ht].
      * intros i l Hi. rewrite list_lookup_alter in Hi.
        destruct (decide (liftIndex t = i)) as [<-|Hne]; [|by apply (Hl i l)].
        destruct (liftStates s !! liftIndex t) as [l0|]; [|done].
        simpl in Hi. injection Hi as <-. by right.
    + split; [|split; [|split]]; simpl; [|done|done|done].
      intros t0 Hin. apply elem_of_insert_inv in Hin as [->|Hin];
        [done|by apply Ht].
    + assert (calledOnly evs' (release s k t)) as HR.
      { split; [|split; [|split]]; simpl; [|done|done|].
        - intros t0 Hin. apply Ht. by eapply list_elem_of_delete_inv.
        - intros i l Hi. rewrite list_lookup_alter in Hi.
          destruct (decide (liftIndex t = i)) as [<-|Hne];
            [|by apply (Hl i l)].
          destruct (liftStates s !! liftIndex t) as [l0|] eqn:E; [|done].
          simpl in Hi. injection Hi as <-. by apply (Hl (liftIndex t) l0). }
      rewrite finish_release.
      destruct (floorEntry (floorCalls s) (targetFloor t)) as [e|] eqn:He;
        [|done].
      apply checkPendingCalls_calledOnly. fold (cleared s k t).
      destruct HR as (Ht' & Hp' & _ & Hl').
      split; [done|]. split; [done|]. split; [|done].
      intros g d Hflag.
      destruct (cleared_flag_inv s k t e g d He Hflag) as [_ Hold].
      by apply Hfl.
Qed.

Lemma run_calledOnly floors lifts evs :
  calledOnly evs (run (createInitialState floors lifts) evs).
Proof.
  induction evs as [|e evs IH] using rev_ind.
  - split; [|split; [|split]]; simpl.
    + intros t Hin. by apply elem_of_nil in Hin.
    + intros c Hin. by apply elem_of_nil in Hin.
    + intros f d Hflag. unfold flag, floorEntry in Hflag. simpl in Hflag.
      destruct (f <? 0); [done|].
      destruct (replicate _ _ !! _) as [c|] eqn:E; [|done].
      apply lookup_replicate in E as [-> _]. by destruct d.
    + intros i l Hi. apply lookup_replicate in Hi as [-> _]. by left.
  - rewrite run_app. by apply step_calledOnly.
Qed.

(** X9. A lift goes only where it was called.  After any run of events
    from the initial state, every activation in flight has as its target
    a floor whose button was pressed in the run, every queued call and
    every lit flag is one of the presses (floor and direction), and every
    lift stands at floor 1, where it started, or at a floor whose button
    was pressed. *)
Theorem lifts_go_where_called (floors lifts : Z) (evs : list Event) :
  let s := run (createInitialState floors lifts) evs in
  (forall t, t ∈ trips s -> called evs (targetFloor t)) /\
  (forall c, c ∈ pendingCalls s ->
     exists now, Click now (floor c) (direction c) ∈ evs) /\
  (forall f d, flag s f d = true -> exists now, Click now f d ∈ evs) /\
  (forall i l, liftStates s !! i = Some l ->
     currentFloor l = 1 \/ called evs (currentFloor l)).
Proof. apply run_calledOnly. Qed.

(** ** The page *)

Lemma elem_of_renderFloor_buttons floors lifts i b :
  b ∈ floorButtons (renderFloor floors lifts i) <->
  dataFloor b = i /\
  match buttonClass b with Up => i < floors | Down => 1 < i end.
Proof.
  simpl. rewrite elem_of_app. destruct b as [d f]; simpl.
  destruct (Z.ltb_spec i floors) as [Ha|Ha], (Z.ltb_spec 1 i) as [Hb|Hb], d;
    rewrite ?list_elem_of_singleton, ?elem_of_nil;
    (split;
     [intros [H|H]; try done; injection H as E; subst; split; (done || lia)
     |intros [-> Hlt]; try lia; (by left) || (by right)]).
Qed.

Lemma elem_of_buttons floors lifts b :
  b ∈ buttons (renderSimulation floors lifts) <->
  1 <= dataFloor b <= floors /\
  match buttonClass b with
  | Up => dataFloor b < floors
  | Down => 1 < dataFloor b
  end.
Proof.
  unfold buttons, renderSimulation. rewrite list_elem_of_bind. split.
  - intros (fl & Hb & Hfl). apply list_elem_of_fmap in Hfl as (i & -> & Hi).
    apply elem_of_seqZ in Hi.
    apply elem_of_renderFloor_buttons in Hb as [-> Hc]. split; [lia|done].
  - intros [Hr Hc]. exists (renderFloor floors lifts (dataFloor b)). split.
    + by apply elem_of_renderFloor_buttons.
    + apply list_elem_of_fmap. exists (dataFloor b). split; [done|].
      apply elem_of_seqZ. lia.
Qed.

Lemma NoDup_buttons floors lifts :
  NoDup (buttons (renderSimulation floors lifts)).
Proof.
  unfold buttons, renderSimulation. apply NoDup_bind.
  - intros fl1 fl2 b H1 H2 Hb1 Hb2.
    apply list_elem_of_fmap in H1 as (i1 & -> & _).
    apply list_elem_of_fmap in H2 as (i2 & -> & _).
    apply elem_of_renderFloor_buttons in Hb1 as [E1 _].
    apply elem_of_renderFloor_buttons in Hb2 as [E2 _]. congruence.
  - intros fl Hfl. apply list_elem_of_fmap in Hfl as (i & -> & _). simpl.
    destruct (i <? floors), (1 <? i); simpl.
    + apply NoDup_cons. split; [|apply NoDup_singleton].
      by rewrite list_elem_of_singleton.
    + apply NoDup_singleton.
    + apply NoDup_singleton.
    + apply NoDup_nil_2.
  - apply NoDup_fmap_2_strong; [|apply NoDup_seqZ].
    intros i1 i2 _ _ E. by injection E.
Qed.

(** X10. The buttons that [renderSimulation] puts on the page, and that
    [attachEventListeners] gives a listener: floor [f] has an 'up' button
    exactly when [1 <= f < floors] and a 'down' button exactly when
    [1 < f <= floors]; so the top floor has no 'up' button, the ground
    floor no 'down' button, there is no button for floor 0, and a page of
    one floor has no button at all.  No button is there twice. *)
Theorem rendered_buttons (floors lifts : Z) :
  let page := renderSimulation floors lifts in
  (forall d f, mkButton d f ∈ buttons page <->
     match d with Up => 1 <= f < floors | Down => 1 < f <= floors end) /\
  NoDup (buttons page) /\
  (floors <= 1 -> buttons page = []).
Proof.
  split; [|split].
  - intros d f. rewrite elem_of_buttons. simpl. destruct d; lia.
  - apply NoDup_buttons.
  - intros Hf. destruct (buttons _) as [|b bs] eqn:E; [done|].
    assert (b ∈ buttons (renderSimulation floors lifts)) as Hb
      by (rewrite E; apply list_elem_of_here).
    apply elem_of_buttons in Hb. destruct (buttonClass b); lia.
Qed.

(** ** The lifts on the page *)

Lemma shafts_ground (js : list Z) :
  omap id (renderShaft 1 <$> js)
  = (fun j => mkLiftElem (j + 1) (j + 1) 0) <$> js.
Proof.
  induction js as [|j js IH]; [done|].
  change (omap id (renderShaft 1 <$> j :: js))
    with (mkLiftElem (j + 1) (j + 1) 0 :: omap id (renderShaft 1 <$> js)).
  by rewrite IH.
Qed.

Lemma shafts_upper (i : Z) (js : list Z) :
  i <> 1 -> omap id (renderShaft i <$> js) = [].
Proof.
  intros Hi. induction js as [|j js IH]; [done|].
  rewrite fmap_cons. unfold renderShaft at 1.
  destruct (Z.eqb_spec i 1) as [|_]; [done|]. exact IH.
Qed.

Lemma liftElems_upper floors lifts (l : list Z) :
  Forall (fun i => i <> 1) l ->
  liftElems (renderFloor floors lifts <$> l) = [].
Proof.
  unfold liftElems. induction 1 as [|i l Hi _ IH]; [done|].
  rewrite fmap_cons, bind_cons, IH. simpl. rewrite shafts_upper by done. done.
Qed.

Lemma liftElems_render floors lifts :
  1 <= floors ->
  liftElems (renderSimulation floors lifts)
  = (fun j => mkLiftElem (j + 1) (j + 1) 0) <$> seqZ 0 lifts.
Proof.
  intros Hf. unfold renderSimulation. rewrite seqZ_cons by lia.
  rewrite fmap_cons. unfold liftElems. rewrite bind_cons.
  fold (liftElems (renderFloor floors lifts <$> seqZ (Z.succ 1) (Z.pred floors))).
  rewrite liftElems_upper.
  - simpl. by rewrite shafts_ground, app_nil_r.
  - apply Forall_forall. intros i Hi. apply elem_of_seqZ in Hi. lia.
Qed.

Lemma liftElems_no_floor floors lifts :
  floors < 1 -> liftElems (renderSimulation floors lifts) = [].
Proof.
  intros Hf. unfold renderSimulation, seqZ.
  by replace (Z.to_nat floors) with 0%nat by lia.
Qed.

Lemma getLiftById_render floors lifts (j : Z) :
  1 <= floors -> 0 <= j < lifts ->
  getLiftById (renderSimulation floors lifts) (j + 1)
  = Some (mkLiftElem (j + 1) (j + 1) 0).
Proof.
  intros Hf Hj. unfold getLiftById. rewrite liftElems_render by done.
  assert (list_find (fun e => liftId e = j + 1)
            ((fun j => mkLiftElem (j + 1) (j + 1) 0) <$> seqZ 0 lifts)
          = Some (Z.to_nat j, mkLiftElem (j + 1) (j + 1) 0)) as ->; [|done].
  apply list_find_Some. split; [|split; [done|]].
  - rewrite list_lookup_fmap, lookup_seqZ_lt by lia. simpl.
    by replace (0 + Z.of_nat (Z.to_nat j)) with j by lia.
  - intros n y Hn Hlt. rewrite list_lookup_fmap in Hn.
    destruct (seqZ 0 lifts !! n) as [j'|] eqn:E; [|done].
    apply lookup_seqZ in E as [-> _]. simpl in Hn. injection Hn as <-.
    simpl. lia.
Qed.

(** X11. The lifts that [renderSimulation] draws are the lifts of the
    state.  With at least one floor, every entry [i] of [liftStates] of a
    new simulation has its element 'lift-(i+1)' on the page, numbered
    [i + 1] and drawn at the bottom, which is floor 1, where the state
    has the lift; and there are no other lift elements.  With no floor
    (floors < 1) no lift is drawn at all, whatever the number of lifts:
    the lifts are created inside the loop over the floors. *)
Theorem rendered_lifts (floors lifts : Z) :
  let page := renderSimulation floors lifts in
  let s := createInitialState floors lifts in
  (1 <= floors ->
   length (liftElems page) = length (liftStates s) /\
   forall i l, liftStates s !! i = Some l ->
     currentFloor l = 1 /\
     getLiftById page (Z.of_nat i + 1)
     = Some (mkLiftElem (Z.of_nat i + 1) (Z.of_nat i + 1) 0)) /\
  (floors < 1 ->
   liftElems page = [] /\ forall n, getLiftById page n = None).
Proof.
  split.
  - intros Hf. split.
    + rewrite liftElems_render by done. simpl.
      by rewrite length_fmap, length_seqZ, length_replicate.
    + intros i l Hi. simpl in Hi.
      apply lookup_replicate in Hi as [-> Hi]. split; [done|].
      apply getLiftById_render; [done|lia].
  - intros Hf. split; [by apply liftElems_no_floor|].
    intros n. unfold getLiftById. by rewrite liftElems_no_floor.
Qed.

(** ** Runs driven from the page *)

Lemma step_floorCalls_length s e :
  length (floorCalls (step s e)) = length (floorCalls s).
Proof.
  destruct e as [now f d|k]; simpl.
  - pose proof (callLift_cases now s f d) as H.
    destruct (floorEntry (floorCalls s) f) as [e|]; [|by rewrite H].
    destruct (getFlag e d); [by rewrite H|].
    destruct H as [[_ ->]|(i & l & _ & _ & _ & ->)].
    + simpl. by rewrite length_insert.
    + rewrite moveLift_floorCalls. simpl. by rewrite length_insert.
  - destruct (trips s !! k) as [t|]; [|done].
    unfold resume. destruct (phase t); [done|done|].
    rewrite finish_release.
    destruct (floorEntry (floorCalls s) (targetFloor t)); [|done].
    rewrite checkPendingCalls_floorCalls. simpl. by rewrite length_insert.
Qed.

Lemma run_floorCalls_length s evs :
  length (floorCalls (run s evs)) = length (floorCalls s).
Proof.
  revert s. induction evs as [|e evs IH]; intros s; [done|].
  by rewrite run_cons, IH, step_floorCalls_length.
Qed.

Lemma pageRun_click page evs now f d :
  pageRun page evs = true -> Click now f d ∈ evs ->
  mkButton d f ∈ buttons page.
Proof.
  induction evs as [|e evs IH]; intros Hp Hin;
    [by apply elem_of_nil in Hin|].
  simpl in Hp. apply andb_true_iff in Hp as [He Hp].
  apply elem_of_cons in Hin as [<-|Hin]; [|by apply IH].
  simpl in He. by apply bool_decide_eq_true in He.
Qed.

Lemma pageRun_floor floors lifts evs now f d :
  pageRun (renderSimulation floors lifts) evs = true ->
  Click now f d ∈ evs -> 1 <= f <= floors.
Proof.
  intros Hp Hin.
  apply (pageRun_click _ evs now f d Hp), elem_of_buttons in Hin.
  simpl in Hin. lia.
Qed.

Lemma pageRun_lift_floor floors lifts evs i l :
  pageRun (renderSimulation floors lifts) evs = true ->
  liftStates (run (createInitialState floors lifts) evs) !! i = Some l ->
  1 <= currentFloor l <= Z.max 1 floors.
Proof.
  intros Hp Hi.
  destruct (run_calledOnly floors lifts evs) as (_ & _ & _ & Hl).
  destruct (Hl i l Hi) as [->|(now & d & Hc)]; [lia|].
  pose proof (pageRun_floor _ _ _ _ _ _ Hp Hc). lia.
Qed.

(** X12. Driven from its page, the simulation stays on its floors.  In a
    run from a new simulation in which every click is the listener of a
    button of the rendered page: (a) no call of [callLift] throws; (b) a
    flag is only ever lit for a button that is on the page, so never for
    floor 0, for 'up' at the top floor or for 'down' at the ground floor;
    (c) every activation of [moveLift] is for a floor between 1 and
    [floors] and for a lift that has its element on the page; (d) every
    queued call is for a button of the page; and (e) every lift stands at
    a floor between 1 and [floors] (at floor 1 if there is no floor). *)
Theorem page_run_safe (floors lifts : Z) (evs : list Event) :
  let page := renderSimulation floors lifts in
  let init := createInitialState floors lifts in
  pageRun page evs = true ->
  (forall evs1 now f d evs2, evs = evs1 ++ Click now f d :: evs2 ->
     is_Some (handleEvent (mkButton d f) now (run init evs1))) /\
  (forall f d, flag (run init evs) f d = true ->
     mkButton d f ∈ buttons page) /\
  (forall t, t ∈ trips (run init evs) ->
     1 <= targetFloor t <= floors /\
     is_Some (getLiftById page (Z.of_nat (liftIndex t) + 1))) /\
  (forall c, c ∈ pendingCalls (run init evs) ->
     mkButton (direction c) (floor c) ∈ buttons page) /\
  (forall i l, liftStates (run init evs) !! i = Some l ->
     1 <= currentFloor l <= Z.max 1 floors).
Proof.
  intros page init Hp.
  assert (forall now f d, Click now f d ∈ evs -> 1 <= f <= floors) as Hclick.
  { intros now f d. exact (pageRun_floor floors lifts evs now f d Hp). }
  destruct (run_calledOnly floors lifts evs) as (Ht & Hq & Hfl & Hl).
  fold init in Ht, Hq, Hfl, Hl.
  split; [|split; [|split; [|split]]].
  - intros evs1 now f d evs2 ->. unfold handleEvent. simpl.
    assert (1 <= f <= floors) as Hf.
    { apply (Hclick now f d). apply elem_of_app. right.
      apply list_elem_of_here. }
    pose proof (callLift_cases now (run init evs1) f d) as H.
    destruct (proj2 (floorEntry_is_Some (floorCalls (run init evs1)) f))
      as [e He].
    { rewrite run_floorCalls_length. simpl. rewrite length_replicate. lia. }
    rewrite He in H. destruct (getFlag e d); [by rewrite H|].
    destruct H as [[_ ->]|(i & l & _ & _ & _ & ->)]; done.
  - intros f d Hflag. destruct (Hfl f d Hflag) as [now Hin].
    by apply (pageRun_click page evs now f d).
  - intros t Hin. destruct (Ht t Hin) as (now & d & Hc).
    pose proof (Hclick _ _ _ Hc) as Hf. split; [done|].
    assert (reachable (run init evs)) as Hr.
    { apply reachable_run. apply reachable_init. }
    apply list_elem_of_lookup in Hin as [k Hk].
    pose proof (trip_lift_lt _ k t (proj1 (reachable_Inv _ Hr)) Hk) as Hlt.
    rewrite run_lifts_length in Hlt. simpl in Hlt.
    rewrite length_replicate in Hlt.
    unfold page. rewrite getLiftById_render; [done|lia|lia].
  - intros c Hin. destruct (Hq c Hin) as [now Hc].
    by apply (pageRun_click page evs now).
  - intros i l. exact (pageRun_lift_floor floors lifts evs i l Hp).
Qed.

Lemma page_run_safe_witness :
  pageRun (renderSimulation 3 2) idleReactionEvents = true /\
  is_Some (handleEvent (mkButton Down 3) 100
             (run (createInitialState 3 2) [Click 0 2 Up])) /\
  (forall i l,
     liftStates (run (createInitialState 3 2) idleReactionEvents) !! i
       = Some l -> 1 <= currentFloor l <= 3).
Proof.
  split; [reflexivity|].
  destruct (page_run_safe 3 2 idleReactionEvents eq_refl)
    as (Hcall & _ & _ & _ & Hlifts).
  split.
  - apply (Hcall [Click 0 2 Up] 100 3 Down
             [Click 200 1 Up; Click 300 2 Down;
              Fire 0; Fire 1; Fire 0; Fire 1]).
    reflexivity.
  - exact Hlifts.
Defined.

(** ** How long a call waits when a lift is idle *)

(** X13. On the page, a call that finds an idle lift is answered at
    once and within [2000 * (floors - 1)] ms.  The page has at most
    1,073,742 floors, so that every travel time is below 2^31 ms, the
    largest delay [setTimeout] takes as it is.  In a run driven from the
    page, a click on a button (f, d) whose flag is out, made while some
    lift is idle, is not queued: the idle lift [i] that
    [findNearestIdleLift] picks starts for floor [f], it is no farther
    from [f] than any idle lift, and its travel timer is set for
    [2000 * abs (currentFloor - f)] ms, which is at most
    [2000 * (floors - 1)] and within the range of [setTimeout]. *)
Theorem idle_lift_answers_at_once (floors lifts : Z) (evs : list Event)
    (now f : Z) (d : Direction) (j : nat) (lj : LiftState) :
  let page := renderSimulation floors lifts in
  let s := run (createInitialState floors lifts) evs in
  floors <= 1073742 ->
  pageRun page evs = true -> mkButton d f ∈ buttons page ->
  flag s f d = false ->
  liftStates s !! j = Some lj -> status lj = idle ->
  exists i l,
    liftStates s !! i = Some l /\ status l = idle /\
    findNearestIdleLift s f = Z.of_nat i /\
    dist f l <= dist f lj /\ dist f l <= floors - 1 /\
    pendingCalls (step s (Click now f d)) = pendingCalls s /\
    trips (step s (Click now f d))
    = trips s ++ [mkTrip i f Travelling (now + dist f l * 2000)] /\
    0 <= dist f l * 2000 <= 2000 * (floors - 1) /\
    dist f l * 2000 <= 2147483647.
Proof.
  intros page s Hmax Hp Hb Hflag Hj Hidle.
  apply elem_of_buttons in Hb. simpl in Hb.
  assert (1 <= f <= floors) as Hf by lia.
  destruct (proj2 (floorEntry_is_Some (floorCalls s) f)) as [e He].
  { unfold s. rewrite run_floorCalls_length. simpl.
    rewrite length_replicate. lia. }
  assert (getFlag e d = false) as Hg.
  { unfold flag in Hflag. by rewrite He in Hflag. }
  destruct (nearest_least s f j lj Hj Hidle) as (i & l & Hn & Hl & Hi & Hd).
  exists i, l.
  assert (dist f l <= floors - 1) as Hbound.
  { pose proof (pageRun_lift_floor floors lifts evs i l Hp Hl).
    unfold dist. lia. }
  split; [done|]. split; [done|]. split; [done|]. split; [done|].
  split; [done|].
  pose proof (callLift_cases now s f d) as H. rewrite He, Hg in H.
  destruct H as [[Hneg _]|(i' & l' & Hn' & Hl' & _ & H)]; [lia|].
  assert (i' = i) as -> by lia.
  assert (l' = l) as -> by congruence.
  simpl. rewrite H.
  destruct (moveLift_fields now (lit s f d e) i l f Hl)
    as (_ & _ & -> & _ & ->).
  split; [done|]. split; [|unfold dist in *; lia].
  simpl. do 3 f_equal. unfold dist. lia.
Qed.

Lemma idle_lift_answers_at_once_witness :
  let s := run (createInitialState 3 2) [Click 0 2 Up] in
  pageRun (renderSimulation 3 2) [Click 0 2 Up] = true /\
  trips (step s (Click 100 3 Down))
  = trips s ++ [mkTrip 1 3 Travelling 4100].
Proof.
  split; [reflexivity|].
  assert (mkButton Down 3 ∈ buttons (renderSimulation 3 2)) as Hb.
  { apply (list_elem_of_lookup_2 _ 3%nat). reflexivity. }
  destruct (idle_lift_answers_at_once 3 2 [Click 0 2 Up] 100 3 Down 1
              (mkLiftState 1 idle) ltac:(lia) eq_refl Hb eq_refl eq_refl
              eq_refl)
    as (i & l & Hl & _ & Hn & _ & _ & _ & Ht & _).
  vm_compute (findNearestIdleLift _ _) in Hn.
  assert (i = 1%nat) as -> by lia.
  injection Hl as <-. exact Ht.
Defined.

(** ** A simulation without lifts *)

Lemma no_lift_step_inv s e :
  liftStates s = [] -> trips s = [] ->
  (forall f d, flag s f d = true <-> mkCall f d ∈ pendingCalls s) ->
  liftStates (step s e) = [] /\ trips (step s e) = [] /\
  (forall f d, flag (step s e) f d = true
     <-> mkCall f d ∈ pendingCalls (step s e)) /\
  pendingCalls s `prefix_of` pendingCalls (step s e).
Proof.
  intros Hl Ht Hfl.
  assert (step s e = s \/
          exists now f d entry,
            e = Click now f d /\ floorEntry (floorCalls s) f = Some entry /\
            getFlag entry d = false /\
            step s e = set_pendingCalls (pendingCalls s ++ [mkCall f d])
                         (lit s f d entry)) as [->|H].
  { destruct e as [now f d|k]; simpl.
    - pose proof (callLift_cases now s f d) as H.
      destruct (floorEntry (floorCalls s) f) as [e|] eqn:He;
        [|left; by rewrite H].
      destruct (getFlag e d) eqn:Hg; [left; by rewrite H|].
      destruct H as [[_ H]|(i & l & _ & Hi & _)].
      + right. exists now, f, d, e. by rewrite H.
      + by rewrite Hl in Hi.
    - left. by rewrite Ht. }
  - done.
  - destruct H as (now & f & d & entry & -> & He & Hg & ->).
    split; [done|]. split; [done|]. split.
    + intros g d'. simpl. rewrite elem_of_app, list_elem_of_singleton.
      rewrite <- Hfl.
      rewrite (flag_ext _ (lit s f d entry)) by done. split.
      * intros H. destruct (lit_flag_inv_dir s f d entry g d' He H)
          as [[-> ->]|?]; [by right|by left].
      * intros [H|H].
        -- by apply lit_flag_mono.
        -- injection H as -> ->. by apply lit_flag_eq.
    + simpl. by apply prefix_app_r.
Qed.

Lemma no_lift_run s evs :
  liftStates s = [] -> trips s = [] ->
  (forall f d, flag s f d = true <-> mkCall f d ∈ pendingCalls s) ->
  liftStates (run s evs) = [] /\ trips (run s evs) = [] /\
  (forall f d, flag (run s evs) f d = true
     <-> mkCall f d ∈ pendingCalls (run s evs)) /\
  pendingCalls s `prefix_of` pendingCalls (run s evs).
Proof.
  revert s. induction evs as [|e evs IH]; intros s Hl Ht Hfl; [done|].
  rewrite run_cons.
  destruct (no_lift_step_inv s e Hl Ht Hfl) as (Hl1 & Ht1 & Hfl1 & Hp1).
  destruct (IH (step s e) Hl1 Ht1 Hfl1) as (Hl2 & Ht2 & Hfl2 & Hp2).
  split; [done|]. split; [done|]. split; [done|]. by etrans.
Qed.

Lemma initSimulation_no_lift (floors : Z) :
  initSimulation (Int floors) (Int 0)
  = if (-1 <=? floors) && (floors <=? 4294967294)
    then Some (createInitialState floors 0, renderSimulation floors 0)
    else None.
Proof.
  unfold initSimulation, arrayLength.
  destruct (Z.leb_spec 0 (floors + 1)), (Z.leb_spec (floors + 1) 4294967295),
    (Z.leb_spec (-1) floors), (Z.leb_spec floors 4294967294);
    simpl; try done; lia.
Qed.

(** X14. Started without validation and with 0 lifts, the simulation
    takes calls and never serves one.  [initSimulation(floors, 0)] returns
    exactly for [-1 <= floors <= 2^32 - 2] (outside, [Array(floors + 1)]
    throws a RangeError); it then draws no lift, and from two floors on it
    draws buttons.  In every run of the new simulation no activation of
    [moveLift] ever exists and no timer is ever pending; the calls in the
    queue are exactly the lit flags; and whatever happens afterwards, the
    queue only grows at its tail: no call ever leaves it. *)
Theorem start_without_lifts (floors : Z) :
  (-1 <= floors <= 4294967294 ->
   initSimulation (Int floors) (Int 0)
   = Some (createInitialState floors 0, renderSimulation floors 0)) /\
  (floors < -1 \/ 4294967294 < floors ->
   initSimulation (Int floors) (Int 0) = None) /\
  forall s page, initSimulation (Int floors) (Int 0) = Some (s, page) ->
    liftElems page = [] /\
    (2 <= floors -> mkButton Up 1 ∈ buttons page) /\
    forall evs,
      trips (run s evs) = [] /\
      (forall k, step (run s evs) (Fire k) = run s evs) /\
      (forall f d, flag (run s evs) f d = true
         <-> mkCall f d ∈ pendingCalls (run s evs)) /\
      (forall evs', pendingCalls (run s evs)
         `prefix_of` pendingCalls (run (run s evs) evs')).
Proof.
  rewrite initSimulation_no_lift. split; [|split].
  - intros H. destruct (Z.leb_spec (-1) floors); [|lia].
    destruct (Z.leb_spec floors 4294967294); [|lia]. done.
  - intros H.
    destruct (Z.leb_spec (-1) floors), (Z.leb_spec floors 4294967294);
      simpl; try done; lia.
  - intros s page H.
    destruct ((-1 <=? floors) && (floors <=? 4294967294)); [|done].
    injection H as <- <-.
    assert (forall f d, flag (createInitialState floors 0) f d = true
              <-> mkCall f d ∈ pendingCalls (createInitialState floors 0))
      as Hfl0.
    { intros f d. simpl. rewrite elem_of_nil. split; [|done].
      unfold flag, floorEntry. simpl. destruct (f <? 0); [done|].
      destruct (replicate _ _ !! _) as [c|] eqn:E; [|done].
      apply lookup_replicate in E as [-> _]. by destruct d. }
    split; [|split].
    + destruct (Z.le_gt_cases 1 floors) as [H1|H1].
      * by rewrite liftElems_render.
      * apply liftElems_no_floor. lia.
    + intros H2. apply elem_of_buttons. simpl. lia.
    + intros evs.
      destruct (no_lift_run (createInitialState floors 0) evs eq_refl
                  eq_refl Hfl0) as (Hl & Ht & Hfl & _).
      split; [done|]. split; [|split; [done|]].
      * intros k. simpl. by rewrite Ht.
      * intros evs'.
        by destruct (no_lift_run _ evs' Hl Ht Hfl) as (_ & _ & _ & Hp).
Qed.

Lemma start_without_lifts_witness :
  initSimulation (Int 3) (Int 0)
  = Some (createInitialState 3 0, renderSimulation 3 0) /\
  initSimulation (Int 4294967295) (Int 0) = None /\
  pendingCalls (run (createInitialState 3 0)
                  [Click 0 2 Up; Fire 0; Click 100 3 Down])
  = [mkCall 2 Up; mkCall 3 Down] /\
  flag (run (createInitialState 3 0)
          [Click 0 2 Up; Fire 0; Click 100 3 Down]) 2 Up = true.
Proof.
  destruct (start_without_lifts 3) as (Hsome & _ & Hrun).
  destruct (start_without_lifts 4294967295) as (_ & Hnone & _).
  split; [apply Hsome; lia|]. split; [apply Hnone; lia|].
  split; [reflexivity|].
  destruct (Hrun (createInitialState 3 0) (renderSimulation 3 0)
              (Hsome ltac:(lia))) as (_ & _ & Hevs).
  destruct (Hevs [Click 0 2 Up; Fire 0; Click 100 3 Down])
    as (_ & _ & Hfl & _).
  apply Hfl. apply (list_elem_of_lookup_2 _ 0%nat). reflexivity.
Defined.

(** ** The functional copy and the class take the same decisions *)

Lemma untimed_fields s s' :
  untimed s = untimed s' <->
  liftStates s = liftStates s' /\ floorCalls s = floorCalls s' /\
  pendingCalls s = pendingCalls s' /\ doorsOpen s = doorsOpen s' /\
  untimedTrip <$> trips s = untimedTrip <$> trips s'.
Proof.
  destruct s as [a b c d tr], s' as [a' b' c' d' tr'].
  unfold untimed. simpl. split.
  - intros H. by injection H.
  - by intros (-> & -> & -> & -> & ->).
Qed.

Lemma moveLift_untimed now now' s s' i f :
  untimed s = untimed s' ->
  untimed (moveLift now s i f) = untimed (moveLift now' s' i f).
Proof.
  rewrite !untimed_fields. intros (Hl & Hf & Hq & Hd & Ht).
  unfold moveLift. rewrite <- Hl.
  destruct (liftStates s !! i) as [l|]; [|done]. simpl.
  rewrite !fmap_app, Ht. by repeat split.
Qed.

Lemma checkPendingCalls_untimed now now' s s' :
  untimed s = untimed s' ->
  untimed (checkPendingCalls now s) = untimed (checkPendingCalls now' s').
Proof.
  intros H. pose proof H as H0.
  apply untimed_fields in H0 as (Hl & Hf & Hq & Hd & Ht).
  unfold checkPendingCalls. rewrite <- Hq.
  destruct (pendingCalls s) as [|c rest]; [done|].
  assert (untimed (set_pendingCalls rest s)
          = untimed (set_pendingCalls rest s')) as Hrest.
  { apply untimed_fields. simpl. by rewrite Hl, Hf, Hd, Ht. }
  assert (findNearestIdleLift (set_pendingCalls rest s) (floor c)
          = findNearestIdleLift (set_pendingCalls rest s') (floor c)) as <-.
  { unfold findNearestIdleLift. simpl. by rewrite Hl. }
  destruct (findNearestIdleLift _ _ =? -1).
  - apply untimed_fields. simpl. by rewrite Hl, Hf, Hd, Ht.
  - by apply moveLift_untimed.
Qed.

Lemma callLift_untimed now s s' f d :
  untimed s = untimed s' ->
  untimed <$> callLift now s f d = untimed <$> callLift now s' f d.
Proof.
  intros H. pose proof H as H0.
  apply untimed_fields in H0 as (Hl & Hf & Hq & Hd & Ht).
  unfold callLift. rewrite <- Hf.
  destruct (floorEntry (floorCalls s) f) as [e|]; [|done].
  destruct (getFlag e d); [simpl; by rewrite H|].
  set (fc := <[Z.to_nat f := setFlag e d true]> (floorCalls s)).
  assert (untimed (set_floorCalls fc s) = untimed (set_floorCalls fc s'))
    as Hlit.
  { apply untimed_fields. simpl. by rewrite Hl, Hq, Hd, Ht. }
  assert (findNearestIdleLift (set_floorCalls fc s) f
          = findNearestIdleLift (set_floorCalls fc s') f) as <-.
  { unfold findNearestIdleLift. simpl. by rewrite Hl. }
  simpl. destruct (findNearestIdleLift _ _ =? -1); simpl; f_equal.
  - apply untimed_fields. simpl. by rewrite Hl, Hq, Hd, Ht.
  - by apply moveLift_untimed.
Qed.

Lemma finish_untimed s s' k t t' :
  untimed s = untimed s' -> untimedTrip t = untimedTrip t' ->
  untimed (finish s k t) = untimed (finish s' k t').
Proof.
  intros H Htt. pose proof H as H0.
  apply untimed_fields in H0 as (Hl & Hf & Hq & Hd & Ht).
  injection Htt as Hi Htf Hp.
  rewrite !finish_release, <- Hf, <- Htf.
  assert (untimed (release s k t) = untimed (release s' k t')) as HR.
  { apply untimed_fields. simpl.
    by rewrite !list_fmap_delete, Ht, Hl, Hf, Hq, Hd, Hi. }
  destruct (floorEntry (floorCalls s) (targetFloor t)); [|done].
  apply checkPendingCalls_untimed.
  apply untimed_fields in HR as (Hl' & Hf' & Hq' & Hd' & Ht').
  apply untimed_fields. simpl in *. by rewrite Hl', Hq', Hd', Ht'.
Qed.

Lemma step_untimed s s' e :
  untimed s = untimed s' ->
  untimed (FunctionalDoors.step s e) = untimed (step s' e).
Proof.
  intros H. pose proof H as H0.
  apply untimed_fields in H0 as (Hl & Hf & Hq & Hd & Ht).
  destruct e as [now f d|k]; simpl.
  - pose proof (callLift_untimed now s s' f d H) as Hc.
    destruct (callLift now s f d) as [s1|], (callLift now s' f d) as [s1'|];
      [|discriminate Hc|discriminate Hc|done].
    change (Some (untimed s1) = Some (untimed s1')) in Hc. congruence.
  - pose proof (f_equal (fun l => l !! k) Ht) as Hk. simpl in Hk.
    rewrite !list_lookup_fmap in Hk.
    destruct (trips s !! k) as [t|], (trips s' !! k) as [t'|];
      simpl in Hk; try done.
    injection Hk as Hi Htf Hp.
    unfold FunctionalDoors.resume, resume. rewrite <- Hp.
    destruct (phase t) eqn:Hpt.
    + apply untimed_fields. simpl.
      rewrite !list_fmap_insert, Ht, Hl, Hf, Hq, Hd, Hi, Htf.
      unfold untimedTrip. simpl. done.
    + apply untimed_fields. simpl.
      rewrite !list_fmap_insert, Ht, Hl, Hf, Hq, Hd, Hi, Htf.
      unfold untimedTrip. simpl. done.
    + apply finish_untimed; [done|]. unfold untimedTrip. congruence.
Qed.

Lemma run_untimed evs : forall s s',
  untimed s = untimed s' ->
  untimed (FunctionalDoors.run s evs) = untimed (run s' evs).
Proof.
  induction evs as [|e evs IH]; intros s s' H; [done|].
  apply (IH (FunctionalDoors.step s e) (step s' e)). by apply step_untimed.
Qed.

(** X15. The functional copy with the shorter door time takes the same
    decisions as the class.  Its doors stay open for 2000 ms and not
    2500 ms, so the timer of the closing doors is due 500 ms earlier; but
    after any sequence of clicks and timer callbacks the two have the same
    lift states, flags, queue, doors and activations in flight, and differ
    only in the times at which the pending timers are due. *)
Theorem functional_doors_same_decisions (s : Sim) (evs : list Event) :
  untimed (FunctionalDoors.run s evs) = untimed (run s evs) /\
  (forall k t, trips s !! k = Some t -> phase t = Travelling ->
     due <$> trips (FunctionalDoors.step s (Fire k)) !! k
       = Some (due t + 2000) /\
     due <$> trips (step s (Fire k)) !! k = Some (due t + 2500)).
Proof.
  split; [by apply run_untimed|].
  intros k t Hk Hp. pose proof (lookup_lt_Some _ _ _ Hk) as Hlt.
  simpl. rewrite Hk. unfold FunctionalDoors.resume, resume. rewrite Hp.
  simpl. by rewrite !list_lookup_insert_eq.
Qed.

(** ** The earlier copy of the class keeps the lifts apart *)

(** [callLift] without the test of the flag is [callLift] of the current
    class on the state with that flag put out. *)
Lemma unguarded_callLift now s f d :
  Unguarded.callLift now s f d = callLift now (unlit s f d) f d.
Proof.
  unfold Unguarded.callLift, unlit.
  destruct (floorEntry (floorCalls s) f) as [e|] eqn:He.
  - pose proof (floorEntry_Some_range _ _ _ He) as Hr.
    unfold callLift. simpl. rewrite floorEntry_insert_eq by done.
    rewrite getFlag_setFlag. destruct (decide (d = d)) as [_|]; [|done].
    rewrite list_insert_insert_eq.
    assert (setFlag (setFlag e d false) d true = setFlag e d true) as ->
      by by destruct d.
    done.
  - unfold callLift. by rewrite He.
Qed.

Lemma unlit_Inv s f d : Inv s -> Inv (unlit s f d).
Proof.
  intros [HI HB]. unfold unlit.
  destruct (floorEntry (floorCalls s) f) as [e|]; [|done]. split.
  - apply (Inv0_frame s); try done.
    + simpl. by rewrite length_insert.
    + unfold inFloors. simpl. rewrite length_insert.
      apply (inv_pending s HI).
  - done.
Qed.

Lemma unguarded_step_Inv s e : Inv s -> Inv (Unguarded.step s e).
Proof.
  intros HI. destruct e as [now f d|k].
  - simpl. rewrite unguarded_callLift.
    destruct (callLift now (unlit s f d) f d) as [s'|] eqn:E; [|done].
    apply (callLift_Inv now (unlit s f d) f d s'); [|done].
    by apply unlit_Inv.
  - by apply (step_Inv s (Fire k)).
Qed.

Lemma unguarded_run_Inv s evs : Inv s -> Inv (Unguarded.run s evs).
Proof.
  revert s. induction evs as [|e evs IH]; intros s HI; [done|].
  apply (IH (Unguarded.step s e)). by apply unguarded_step_Inv.
Qed.

(** X16. The earlier copy of the class, whose [callLift] does not test
    the flag, still keeps the lifts apart.  Its [callLift] is the current
    one run on the state with the flag of the button put out first; so it
    may queue a call twice or send a second lift, but in every run from a
    new simulation no lift has two activations of [moveLift] in flight, a
    lift is idle exactly when it has none, and while a call waits in the
    queue no lift is idle. *)
Theorem unguarded_keeps_lifts_apart (floors lifts : Z) (evs : list Event) :
  let s := Unguarded.run (createInitialState floors lifts) evs in
  (forall now f d,
     Unguarded.step s (Click now f d)
     = step (unlit s f d) (Click now f d)) /\
  NoDup (liftIndex <$> trips s) /\
  (forall i l, liftStates s !! i = Some l ->
     (status l = idle <-> i ∉ liftIndex <$> trips s)) /\
  (pendingCalls s <> [] ->
   forall i l, liftStates s !! i = Some l -> status l = moving).
Proof.
  intros s.
  assert (Inv s) as [HI HB].
  { apply unguarded_run_Inv. split; [apply Inv0_init|].
    intros H. by simpl in H. }
  split; [|split; [|split]].
  - intros now f d. simpl. rewrite unguarded_callLift.
    destruct (callLift now (unlit s f d) f d) as [s'|] eqn:E; [done|].
    unfold unlit in *.
    destruct (floorEntry (floorCalls s) f) as [e|] eqn:He; [|done].
    exfalso. unfold callLift in E. simpl in E.
    rewrite floorEntry_insert_eq in E
      by by eapply floorEntry_Some_range.
    destruct (getFlag _ d); [done|].
    by destruct (findNearestIdleLift _ _ =? -1).
  - apply (inv_nodup s HI).
  - intros i l Hl. pose proof (inv_moving s HI i l Hl) as Hm.
    destruct (status l) eqn:Es.
    + split; [|done]. intros _ Hin. apply Hm in Hin. done.
    + split; [done|]. intros Hn. destruct Hn. by apply Hm.
  - exact HB.
Qed.
